(** * Verification of differential-dataflow's lattice, Spine trace and
      delta-join operators (shallow embedding of the Rust sources). *)

From Stdlib Require Import ZArith Lia Bool List String.
Import ListNotations.
Open Scope Z_scope.

(* ------------------------------------------------------------------ *)
(** ** src/lattice.rs *)

(** timely's [PartialOrder] together with [Lattice]: the operations of a
    bounded lattice of logical times. *)
Class Lattice (T : Type) := {
  less_equal : T -> T -> bool;
  minimum : T;
  maximum : T;
  join : T -> T -> T;
  meet : T -> T -> T
}.

(** [Lattice::advance_by] (lattice.rs lines 119-131): fold [meet] of
    [join(self, f)] over the frontier, starting with [join(self, frontier[0])];
    [maximum] for an empty frontier. *)
Definition advance_by {T} `{Lattice T} (self : T) (frontier : list T) : T :=
  match frontier with
  | f0 :: rest =>
      fold_left (fun result f => meet result (join self f)) rest (join self f0)
  | [] => maximum
  end.

(** The laws a [Lattice] implementation is expected to satisfy: a partial
    order in which [join] is a least upper bound and [meet] a greatest lower
    bound. *)
Record LatticeLaws (T : Type) `{Lattice T} : Prop := {
  le_refl : forall a, less_equal a a = true;
  le_trans : forall a b c,
    less_equal a b = true -> less_equal b c = true -> less_equal a c = true;
  le_antisym : forall a b,
    less_equal a b = true -> less_equal b a = true -> a = b;
  join_ub_l : forall a b, less_equal a (join a b) = true;
  join_ub_r : forall a b, less_equal b (join a b) = true;
  join_lub : forall a b c,
    less_equal a c = true -> less_equal b c = true -> less_equal (join a b) c = true;
  meet_lb_l : forall a b, less_equal (meet a b) a = true;
  meet_lb_r : forall a b, less_equal (meet a b) b = true;
  meet_glb : forall a b c,
    less_equal c a = true -> less_equal c b = true -> less_equal c (meet a b) = true
}.

(** [implement_lattice!(usize, usize::min_value(), usize::max_value())]:
    a machine integer (kept as [Z] in [0, 2^64)) with [max] and [min]. *)
#[global] Instance usize_Lattice : Lattice Z := {
  less_equal := Z.leb;
  minimum := 0;
  maximum := 2 ^ 64 - 1;
  join := Z.max;
  meet := Z.min
}.

(** timely's [Product<T1, T2>] with the componentwise order (lattice.rs
    lines 168-187). *)
Record Product (T1 T2 : Type) := { outer : T1; inner : T2 }.
Arguments outer {T1 T2} _.
Arguments inner {T1 T2} _.
Arguments Build_Product {T1 T2} _ _.

#[global] Instance Product_Lattice {T1 T2} `{Lattice T1} `{Lattice T2}
  : Lattice (Product T1 T2) := {
  less_equal := fun a b =>
    less_equal (outer a) (outer b) && less_equal (inner a) (inner b);
  minimum := Build_Product minimum minimum;
  maximum := Build_Product maximum maximum;
  join := fun a b => Build_Product (join (outer a) (outer b)) (join (inner a) (inner b));
  meet := fun a b => Build_Product (meet (outer a) (outer b)) (meet (inner a) (inner b))
}.

(** The property of the claim: [t'] compares to every time in the upward
    closure of [frontier] exactly as [t] does. *)
Definition indistinguishable {T} `{Lattice T} (frontier : list T) (t t' : T) : Prop :=
  forall q, existsb (fun f => less_equal f q) frontier = true ->
    less_equal t q = less_equal t' q.

(* ------------------------------------------------------------------ *)
(** ** src/trace/implementations/spine_fueled_neu.rs : data *)

(** Equality ([Eq]) and [Default] of the Rust types, as used by the Spine. *)
Class EqB (A : Type) := eqb : A -> A -> bool.
Class Default (A : Type) := default : A.

#[global] Instance Z_EqB : EqB Z := Z.eqb.
#[global] Instance Z_Default : Default Z := 0.

Fixpoint list_eqb {A} `{EqB A} (l1 l2 : list A) : bool :=
  match l1, l2 with
  | [], [] => true
  | a1 :: r1, a2 :: r2 => eqb a1 a2 && list_eqb r1 r2
  | _, _ => false
  end.

(** A batch: its [lower] and [upper] frontiers and its
    [(key, val, time, diff)] records; [len()] is the number of records. *)
Record Batch (K V T : Type) := mkBatch {
  lower : list T;
  upper : list T;
  updates : list (K * V * T * Z)
}.
Arguments mkBatch {K V T} _ _ _.
Arguments lower {K V T} _.
Arguments upper {K V T} _.
Arguments updates {K V T} _.

Definition len {K V T} (b : Batch K V T) : nat := List.length (updates b).
Definition is_empty {K V T} (b : Batch K V T) : bool := Nat.eqb (len b) 0.

(** Modelled from the spec: the batch [Merger] (its implementation is not in
    src/). Its state is the number of records still to be merged; [work]
    consumes records while [fuel] is positive, debiting one unit of fuel per
    record (section 4.C/4.D of the spec). *)
Record Merger := mkMerger { remaining : Z }.

Definition merger_work (m : Merger) (fuel : Z) : Merger * Z :=
  if fuel <=? 0 then (m, fuel)
  else let c := Z.min fuel (remaining m) in
       (mkMerger (remaining m - c), fuel - c).

(** [enum MergeVariant]. *)
Inductive MergeVariant (K V T : Type) :=
| InProgress (b1 b2 : Batch K V T) (frontier : option (list T)) (m : Merger)
| Complete (o : option (Batch K V T * option (Batch K V T * Batch K V T))).
Arguments InProgress {K V T} _ _ _ _.
Arguments Complete {K V T} _.

(** [enum MergeState]. *)
Inductive MergeState (K V T : Type) :=
| Vacant
| Single (o : option (Batch K V T))
| Double (v : MergeVariant K V T).
Arguments Vacant {K V T}.
Arguments Single {K V T} _.
Arguments Double {K V T} _.

(** [struct Spine] (operator info, logger and activator omitted: they only
    log and reschedule). The Rust field [upper] is [spine_upper] here. *)
Record Spine (K V T : Type) := mkSpine {
  advance_frontier : list T;
  through_frontier : list T;
  merging : list (MergeState K V T);
  pending : list (Batch K V T);
  spine_upper : list T;
  effort : Z
}.
Arguments mkSpine {K V T} _ _ _ _ _ _.
Arguments advance_frontier {K V T} _.
Arguments through_frontier {K V T} _.
Arguments merging {K V T} _.
Arguments pending {K V T} _.
Arguments spine_upper {K V T} _.
Arguments effort {K V T} _.

(** Results of code that may panic. *)
Inductive Result (A : Type) := Ok (a : A) | Panic (msg : string).
Arguments Ok {A} _.
Arguments Panic {A} _.

(** The methods of the Spine that only touch [self.merging] run in a state
    monad over the layers, with panics. *)
Definition LM (K V T A : Type) := list (MergeState K V T) -> Result (A * list (MergeState K V T)).

Definition ret {K V T A} (a : A) : LM K V T A := fun ms => Ok (a, ms).
Definition bind {K V T A B} (m : LM K V T A) (f : A -> LM K V T B) : LM K V T B :=
  fun ms => match m ms with Ok (a, ms') => f a ms' | Panic e => Panic e end.
Definition panic {K V T A} (msg : string) : LM K V T A := fun _ => Panic msg.
Definition get_ms {K V T} : LM K V T (list (MergeState K V T)) := fun ms => Ok (ms, ms).
Definition put_ms {K V T} (ms : list (MergeState K V T)) : LM K V T unit := fun _ => Ok (tt, ms).
Definition lift {K V T A} (r : Result A) : LM K V T A :=
  fun ms => match r with Ok a => Ok (a, ms) | Panic e => Panic e end.

Notation "x <- c1 ;; c2" := (bind c1 (fun x => c2))
  (at level 61, c1 at next level, right associativity).
Notation "c1 ;; c2" := (bind c1 (fun _ : unit => c2))
  (at level 61, right associativity).

(* ------------------------------------------------------------------ *)
(** ** Machine arithmetic used by the Spine *)

Definition usize_wrap (x : Z) : Z := x mod 2 ^ 64.
Definition isize_of_usize (x : Z) : Z := if x <? 2 ^ 63 then x else x - 2 ^ 64.
Definition usize_of_isize (x : Z) : Z := x mod 2 ^ 64.
Definition isize_max : Z := 2 ^ 63 - 1.

(** [x << n] on [usize] (release build: the shift amount is masked). *)
Definition shl_usize (x n : Z) : Z := usize_wrap (Z.shiftl x (n mod 64)).

(** The integer literals of [tidy_layers] ([smaller = 0], [1 << index],
    [(1 << length) / 8]) have no other constraint and default to [i32]:
    wrapping addition, the shift amount masked to five bits, and division
    rounding towards zero (release build). *)
Definition i32_wrap (x : Z) : Z := (x + 2 ^ 31) mod 2 ^ 32 - 2 ^ 31.
Definition shl_i32 (x n : Z) : Z := i32_wrap (Z.shiftl x (n mod 32)).
Definition div_i32 (x y : Z) : Z := i32_wrap (Z.quot x y).

(** [usize::next_power_of_two] (release build: wraps to 0 on overflow). *)
Definition next_power_of_two (n : Z) : Z :=
  if n <=? 1 then 1 else usize_wrap (2 ^ (Z.log2 (n - 1) + 1)).

(** [usize::trailing_zeros]. *)
Definition trailing_zeros (x : Z) : Z :=
  if x =? 0 then 64 else Z.log2 (Z.land x (- x)).

(** [n.next_power_of_two().trailing_zeros() as usize], the level of a batch
    of [n] records. *)
Definition level_of (n : Z) : nat := Z.to_nat (trailing_zeros (next_power_of_two n)).

(* ------------------------------------------------------------------ *)
(** ** src/trace/implementations/spine_fueled_neu.rs : code *)

Section SpineCode.
  Context {K V T : Type} `{EqB K} `{EqB V} `{EqB T} `{Default T} `{Lattice T}.

  Local Abbreviation Batch := (Batch K V T).
  Local Abbreviation MergeState := (MergeState K V T).
  Local Abbreviation MergeVariant := (MergeVariant K V T).
  Local Abbreviation Spine := (Spine K V T).
  Local Abbreviation LM := (LM K V T).

  (** Frontier comparison used throughout the Spine:
      [a.iter().all(|t1| b.iter().any(|t2| t2.less_equal(t1)))], that is,
      every time of [a] is in the future of [b]. *)
Definition frontier_ge (a b : list T) : bool :=
    forallb (fun t1 => existsb (fun t2 => less_equal t2 t1) b) a.

  (** Modelled from the spec: the output of the batch [Merger] ([done()],
      not in src/): both inputs' records with their times advanced by the
      merge frontier, equal [(key, val, time)] coalesced and zero diffs
      dropped; the interval runs from the first batch's [lower] to the
      second batch's [upper]. *)
Definition same_kvt (a b : K * V * T * Z) : bool :=
    let '(k1, v1, t1, _) := a in let '(k2, v2, t2, _) := b in
    eqb k1 k2 && eqb v1 v2 && eqb t1 t2.

Fixpoint add_into (acc : list (K * V * T * Z)) (u : K * V * T * Z) :=
    match acc with
    | [] => [u]
    | x :: rest =>
        if same_kvt x u then
          let '(k, v, t, r) := x in (k, v, t, r + snd u) :: rest
        else x :: add_into rest u
    end.

Definition consolidate (l : list (K * V * T * Z)) : list (K * V * T * Z) :=
    filter (fun u => negb (snd u =? 0)) (fold_left add_into l []).

Definition advance_update (frontier : option (list T)) (u : K * V * T * Z) :=
    let '(k, v, t, r) := u in
    (k, v, match frontier with Some f => advance_by t f | None => t end, r).

Definition merger_done (b1 b2 : Batch) (frontier : option (list T)) : Batch :=
    mkBatch (lower b1) (upper b2)
      (consolidate (map (advance_update frontier) (updates b1 ++ updates b2))).

  (** [MergeState::len]. *)
Definition ms_len (m : MergeState) : nat :=
    match m with
    | Single (Some b) => len b
    | Double (InProgress b1 b2 _ _) => len b1 + len b2
    | Double (Complete (Some (b, _))) => len b
    | _ => 0
    end.

Definition is_vacant (m : MergeState) : bool :=
    match m with Vacant => true | _ => false end.
Definition is_single (m : MergeState) : bool :=
    match m with Single _ => true | _ => false end.
Definition is_double (m : MergeState) : bool :=
    match m with Double _ => true | _ => false end.
Definition is_complete (m : MergeState) : bool :=
    match m with Double (Complete _) => true | _ => false end.

  (** [MergeVariant::work]. *)
Definition variant_work (v : MergeVariant) (fuel : Z) : MergeVariant * Z :=
    match v with
    | InProgress b1 b2 frontier m =>
        let (m', fuel') := merger_work m fuel in
        if 0 <? fuel' then (Complete (Some (merger_done b1 b2 frontier, Some (b1, b2))), fuel')
        else (InProgress b1 b2 frontier m', fuel')
    | c => (c, fuel)
    end.

  (** [MergeVariant::complete]. *)
Definition variant_complete (v : MergeVariant)
    : Result (option (Batch * option (Batch * Batch))) :=
    match fst (variant_work v isize_max) with
    | Complete b => Ok b
    | InProgress _ _ _ _ => Panic "Failed to complete a merge!"%string
    end.

  (** [MergeState::complete] (the caller has already replaced the slot by
      [Vacant]). *)
Definition state_complete (m : MergeState)
    : Result (option (Batch * option (Batch * Batch))) :=
    match m with
    | Vacant => Ok None
    | Single batch => Ok (option_map (fun b => (b, None)) batch)
    | Double variant => variant_complete variant
    end.

  (** [MergeState::work]. *)
Definition state_work (m : MergeState) (fuel : Z) : MergeState * Z :=
    match m with
    | Double layer => let (l', f') := variant_work layer fuel in (Double l', f')
    | _ => (m, fuel)
    end.

  (** [MergeState::begin_merge]; the merger starts with all records of both
      batches to merge. *)
Definition begin_merge (batch1 batch2 : option Batch) (frontier : option (list T))
    : Result MergeState :=
    match batch1, batch2 with
    | Some b1, Some b2 =>
        if list_eqb (upper b1) (lower b2) then
          Ok (Double (InProgress b1 b2 frontier (mkMerger (Z.of_nat (len b1 + len b2)))))
        else Panic "assertion failed: batch1.upper() == batch2.lower()"%string
    | None, Some x => Ok (Double (Complete (Some (x, None))))
    | Some x, None => Ok (Double (Complete (Some (x, None))))
    | None, None => Ok (Double (Complete None))
    end.

  (** Vec operations on [self.merging]: growing, indexing (which panics out
      of range), [take] and [remove]. *)
Definition ensure_len (index : nat) : LM unit :=
    fun ms => Ok (tt, ms ++ repeat Vacant (S index - List.length ms)).

Definition index_get (i : nat) : LM MergeState :=
    fun ms => match nth_error ms i with
              | Some x => Ok (x, ms)
              | None => Panic "index out of bounds"%string
              end.

Fixpoint set_nth (l : list MergeState) (i : nat) (x : MergeState) :=
    match l, i with
    | [], _ => []
    | _ :: r, O => x :: r
    | y :: r, S i' => y :: set_nth r i' x
    end.

Definition index_set (i : nat) (x : MergeState) : LM unit :=
    fun ms => if Nat.ltb i (List.length ms) then Ok (tt, set_nth ms i x)
              else Panic "index out of bounds"%string.

Definition take (i : nat) : LM MergeState :=
    x <- index_get i;; index_set i Vacant;; ret x.

Definition vec_remove (i : nat) : LM unit :=
    fun ms => if Nat.ltb i (List.length ms) then Ok (tt, firstn i ms ++ skipn (S i) ms)
              else Panic "removal index out of bounds"%string.

  (** [Spine::insert_at]; [af] is [self.advance_frontier]. *)
Definition insert_at (af : list T) (batch : option Batch) (index : nat) : LM unit :=
    ensure_len index;;
    st <- take index;;
    match st with
    | Vacant => index_set index (Single batch)
    | Single old =>
        m <- lift (begin_merge old batch (Some af));; index_set index m
    | Double _ => panic "Attempted to insert batch into incomplete merge!"%string
    end.

  (** [Spine::complete_at]. *)
Definition complete_at (index : nat) : LM (option Batch) :=
    st <- take index;;
    r <- lift (state_complete st);;
    ret (option_map fst r).

  (** [Spine::apply_fuel]: each level [0 .. merging.len()] (the range is
      fixed when the loop starts) gets its own copy of [fuel]. *)
Fixpoint apply_fuel_loop (af : list T) (fuel : Z) (index count : nat) : LM unit :=
    match count with
    | O => ret tt
    | S c =>
        st <- index_get index;;
        let (st', _) := state_work st fuel in
        index_set index st';;
        (if is_complete st' then
           complete <- complete_at index;; insert_at af complete (S index)
         else ret tt);;
        apply_fuel_loop af fuel (S index) c
    end.

Definition apply_fuel (af : list T) (fuel : Z) : LM unit :=
    ms <- get_ms;; apply_fuel_loop af fuel 0 (List.length ms).

  (** [Spine::roll_up]. *)
Fixpoint roll_up_loop (af : list T) (i count : nat) (merged : option Batch)
    : LM (option Batch) :=
    match count with
    | O => ret merged
    | S c => insert_at af merged i;; m' <- complete_at i;; roll_up_loop af (S i) c m'
    end.

Definition roll_up (af : list T) (index : nat) : LM unit :=
    ensure_len index;;
    ms <- get_ms;;
    if existsb (fun m => negb (is_vacant m)) (firstn index ms) then
      (merged <- roll_up_loop af 0 index None;;
       insert_at af merged index;;
       st <- index_get index;;
       if is_double st then
         (merged' <- complete_at index;; insert_at af merged' (S index))
       else ret tt)
    else ret tt.

  (** [Spine::tidy_layers]: the bookkeeping size of the layers below, as
      summed in the [Single(Some(batch))] arm, from [smaller = 0] upwards. *)
Fixpoint smaller_sum (ms : list MergeState) (index : nat) (smaller : Z) : Z :=
    match ms with
    | [] => smaller
    | m :: r =>
        smaller_sum r (S index)
          (match m with
           | Vacant => smaller
           | Single _ => i32_wrap (smaller + shl_i32 1 (Z.of_nat index))
           | Double _ => i32_wrap (smaller + shl_i32 2 (Z.of_nat index))
           end)
    end.

  (** The [while appropriate_level < length-1] loop; every iteration but the
      last removes a layer, so [count = merging.len()] iterations suffice. *)
Fixpoint tidy_loop (af : list T) (appropriate_level : nat) (count : nat) : LM unit :=
    match count with
    | O => ret tt
    | S c =>
        ms <- get_ms;;
        let length := List.length ms in
        if Nat.ltb appropriate_level (length - 1) then
          (st <- take (length - 2);;
           match st with
           | Vacant | Single None =>
               vec_remove (length - 2);; tidy_loop af appropriate_level c
           | Single (Some batch) =>
               ms' <- get_ms;;
               let smaller := smaller_sum (firstn (length - 2) ms') 0 0 in
               if smaller <=? div_i32 (shl_i32 1 (Z.of_nat length)) 8 then
                 (vec_remove (length - 2);; insert_at af (Some batch) (length - 2))
               else index_set (length - 2) (Single (Some batch))
           | Double state => index_set (length - 2) (Double state)
           end)
        else ret tt
    end.

Definition tidy_layers (af : list T) : LM unit :=
    ms <- get_ms;;
    match ms with
    | [] => ret tt
    | _ :: _ =>
        let length := List.length ms in
        st <- index_get (length - 1);;
        if is_single st then
          tidy_loop af (level_of (Z.of_nat (ms_len st))) length
        else ret tt
    end.

  (** [Spine::introduce_batch]; [eff] is [self.effort]. *)
Definition introduce_fuel (eff : Z) (batch_index : nat) : Z :=
    isize_of_usize (usize_wrap (shl_usize 8 (Z.of_nat batch_index) * eff)).

Definition introduce_batch (af : list T) (eff : Z) (batch : option Batch)
      (batch_index : nat) : LM unit :=
    let fuel := introduce_fuel eff batch_index in
    apply_fuel af fuel;;
    roll_up af batch_index;;
    insert_at af batch batch_index;;
    tidy_layers af.

  (** [Spine::reduced]. *)
Fixpoint reduced_loop (ms : list MergeState) (non_empty : nat) : bool :=
    match ms with
    | [] => true
    | m :: r =>
        if is_double m then false
        else
          let ne := if Nat.ltb 0 (ms_len m) then S non_empty else non_empty in
          if Nat.ltb 1 ne then false else reduced_loop r ne
    end.

Definition reduced (ms : list MergeState) : bool := reduced_loop ms 0.

  (** Running a method on [self.merging] inside the Spine. *)
Definition with_merging (s : Spine) (ms : list MergeState) : Spine :=
    mkSpine (advance_frontier s) (through_frontier s) ms (pending s) (spine_upper s) (effort s).
Definition with_pending (s : Spine) (p : list Batch) : Spine :=
    mkSpine (advance_frontier s) (through_frontier s) (merging s) p (spine_upper s) (effort s).

Definition run_ms (m : LM unit) (s : Spine) : Result Spine :=
    match m (merging s) with
    | Ok (_, ms') => Ok (with_merging s ms')
    | Panic e => Panic e
    end.

  (** [Spine::with_effort]. *)
Definition with_effort (eff : Z) : Spine :=
    mkSpine [minimum] [minimum] [] [] [default] (if eff =? 0 then 1 else eff).

  (** [Spine::consider_merges]: the [while] loop removes one pending batch
      per iteration, so [pending.len()] iterations suffice. *)
Fixpoint consider_merges_loop (count : nat) (s : Spine) : Result Spine :=
    match count with
    | O => Ok s
    | S c =>
        match pending s with
        | batch :: rest =>
            if frontier_ge (through_frontier s) (upper batch) then
              match run_ms (introduce_batch (advance_frontier s) (effort s) (Some batch)
                              (level_of (Z.of_nat (len batch)))) (with_pending s rest) with
              | Ok s' => consider_merges_loop c s'
              | Panic e => Panic e
              end
            else Ok s
        | [] => Ok s
        end
    end.

Definition consider_merges (s : Spine) : Result Spine :=
    consider_merges_loop (List.length (pending s)) s.

  (** [Trace::insert]. *)
Definition insert (s : Spine) (batch : Batch) : Result Spine :=
    if list_eqb (lower batch) (upper batch) then
      Panic "assertion failed: batch.lower() != batch.upper()"%string
    else if negb (list_eqb (lower batch) (spine_upper s)) then
      Panic "assertion failed: `(left == right)`"%string
    else
      consider_merges
        (mkSpine (advance_frontier s) (through_frontier s) (merging s)
           (pending s ++ [batch]) (upper batch) (effort s)).

  (** Modelled from the spec: [Builder::new()] followed by
      [done(lower, upper, since)] with no record pushed (the builder is not in
      src/): an empty batch with the given [lower] and [upper]. *)
Definition builder_done (lo up since : list T) : Batch := mkBatch lo up [].

  (** The batch [close] builds: [builder.done(&self.upper[..], &[], &self.upper[..])]. *)
Definition close_batch (s : Spine) : option Batch :=
    match spine_upper s with
    | [] => None
    | _ :: _ => Some (builder_done (spine_upper s) [] (spine_upper s))
    end.

  (** [Trace::close]. *)
Definition close (s : Spine) : Result Spine :=
    match close_batch s with
    | Some batch => insert s batch
    | None => Ok s
    end.

  (** [Trace::exert]; [apply_fuel] only reads [*effort], so [effort] is
      unchanged and the result is the new Spine. *)
Definition exert (s : Spine) (eff : Z) : Result Spine :=
    match run_ms (tidy_layers (advance_frontier s)) s with
    | Panic e => Panic e
    | Ok s1 =>
        if negb (reduced (merging s1)) then
          if existsb is_double (merging s1) then
            run_ms (apply_fuel (advance_frontier s1) eff) s1
          else
            let level := level_of (usize_of_isize eff) in
            run_ms (introduce_batch (advance_frontier s1) (effort s1) None level) s1
        else Ok s1
    end.

  (** [TraceReader::advance_by]. *)
Definition spine_advance_by (s : Spine) (frontier : list T) : Spine :=
    match frontier with
    | [] => mkSpine [] (through_frontier s) [] [] (spine_upper s) (effort s)
    | _ :: _ => mkSpine frontier (through_frontier s) (merging s) (pending s)
                  (spine_upper s) (effort s)
    end.

  (** [TraceReader::distinguish_since]. *)
Definition distinguish_since (s : Spine) (frontier : list T) : Result Spine :=
    consider_merges
      (mkSpine (advance_frontier s) frontier (merging s) (pending s) (spine_upper s) (effort s)).

  (** [TraceReader::cursor_through]. The returned [CursorList] is modelled by
      the list of batches it reads, in order; it enumerates their records. *)
Definition layer_batches (m : MergeState) : list Batch :=
    match m with
    | Double (InProgress b1 b2 _ _) =>
        (if negb (is_empty b1) then [b1] else []) ++ (if negb (is_empty b2) then [b2] else [])
    | Double (Complete (Some (b, _))) => if negb (is_empty b) then [b] else []
    | Double (Complete None) => []
    | Single (Some b) => if negb (is_empty b) then [b] else []
    | Single None => []
    | Vacant => []
    end.

Fixpoint pending_through (up : list T) (p : list Batch) : Result (list Batch) :=
    match p with
    | [] => Ok []
    | b :: rest =>
        if negb (is_empty b) then
          let include_lower := frontier_ge up (lower b) in
          let include_upper := frontier_ge up (upper b) in
          if negb (Bool.eqb include_lower include_upper) && negb (list_eqb up (lower b)) then
            Panic "`cursor_through`: `upper` straddles batch"%string
          else
            match pending_through up rest with
            | Ok l => Ok (if include_upper then b :: l else l)
            | Panic e => Panic e
            end
        else pending_through up rest
    end.

Definition cursor_through (s : Spine) (up : list T) : Result (option (list Batch)) :=
    if Nat.eqb (List.length (advance_frontier s)) 0 then
      Panic "assertion failed: self.advance_frontier.len() > 0"%string
    else if negb (frontier_ge up (through_frontier s)) then
      Panic "assertion failed: upper >= through_frontier"%string
    else
      match pending_through up (pending s) with
      | Ok l => Ok (Some (flat_map layer_batches (rev (merging s)) ++ l))
      | Panic e => Panic e
      end.

  (** The records a cursor over a list of batches enumerates. *)
Definition cursor_updates (c : list Batch) : list (K * V * T * Z) := flat_map updates c.

  (** [TraceReader::map_batches]: the batches [f] is applied to, in order,
      layers from the last to the first, then the pending queue. *)
Definition map_batches_layer (m : MergeState) : list Batch :=
    match m with
    | Double (InProgress b1 b2 _ _) => [b1; b2]
    | Double (Complete (Some (b, _))) => [b]
    | Single (Some b) => [b]
    | _ => []
    end.

Definition map_batches (s : Spine) : list Batch :=
    flat_map map_batches_layer (rev (merging s)) ++ pending s.
End SpineCode.

(* ------------------------------------------------------------------ *)
(** ** Definitions used by the statements on the Spine *)

Section SpineDefs.
  Context {K V T : Type} `{EqB K} `{EqB V} `{EqB T} `{Default T} `{Lattice T}.

  (** The records [cursor_through] reads from [pending]: a batch is offending
      when it is non-empty and [upper] dominates exactly one of its two
      frontiers while differing from its [lower]. *)
Definition straddles (up : list T) (b : Batch K V T) : bool :=
    negb (is_empty b) &&
    negb (Bool.eqb (frontier_ge up (lower b)) (frontier_ge up (upper b))) &&
    negb (list_eqb up (lower b)).

Definition included (up : list T) (b : Batch K V T) : bool :=
    negb (is_empty b) && frontier_ge up (upper b).

  (** The state of layer [j], [Vacant] beyond the end of [merging]. *)
Definition slot (ms : list (MergeState K V T)) (j : nat) : MergeState K V T :=
    nth j ms Vacant.

  (** The pending queue [p] is contiguous up to [up]: each batch's upper
      frontier is the next batch's lower frontier, and the last batch's
      upper frontier is [up]. *)
Fixpoint contiguous (p : list (Batch K V T)) (up : list T) : bool :=
    match p with
    | [] => true
    | b :: r =>
        match r with
        | [] => list_eqb (upper b) up
        | b' :: _ => list_eqb (upper b) (lower b') && contiguous r up
        end
    end.
End SpineDefs.

(* ------------------------------------------------------------------ *)
(** ** Concrete Spines over [usize] keys, values and times *)

Definition rbind {A B} (r : Result A) (f : A -> Result B) : Result B :=
  match r with Ok a => f a | Panic e => Panic e end.

(** [Spine::new]: effort one. *)
Definition spine0 : Spine Z Z Z := with_effort 1.

(** Three one-record batches over the intervals [[0,1)], [[1,2)] and
    [[2,3)], and a batch over [[0,1)] with no record. *)
Definition batch_a : Batch Z Z Z := mkBatch [0] [1] [(1, 1, 0, 1)].
Definition batch_b : Batch Z Z Z := mkBatch [1] [2] [(2, 2, 1, 1)].
Definition batch_c : Batch Z Z Z := mkBatch [2] [3] [(3, 3, 2, 1)].
Definition batch_empty : Batch Z Z Z := mkBatch [0] [1] [].

(** Insert [batch_a] and [batch_b], let them in with [distinguish_since([2])],
    insert [batch_c] and let it in with [distinguish_since([3])]. *)
Definition spine_abc : Result (Spine Z Z Z) :=
  rbind (insert spine0 batch_a) (fun s =>
  rbind (insert s batch_b) (fun s =>
  rbind (distinguish_since s [2]) (fun s =>
  rbind (insert s batch_c) (fun s =>
  distinguish_since s [3])))).

(** Then [exert(8)] and [exert(1)]. *)
Definition spine_abc_exerted : Result (Spine Z Z Z) :=
  rbind spine_abc (fun s => rbind (exert s 8) (fun s => exert s 1)).

(** The three records of [batch_a], [batch_b] and [batch_c] merged into one
    batch over [[0,3)], alone at layer 4 of five, and the same batch at
    layer 2 of three. *)
Definition batch_abc : Batch Z Z Z :=
  mkBatch [0] [3] [(1, 1, 0, 1); (2, 2, 1, 1); (3, 3, 2, 1)].
Definition spine_reduced : Spine Z Z Z :=
  mkSpine [0] [3] [Vacant; Vacant; Vacant; Vacant; Single (Some batch_abc)] [] [3] 1.
Definition spine_tidied : Spine Z Z Z :=
  mkSpine [0] [3] [Vacant; Vacant; Single (Some batch_abc)] [] [3] 1.

(** Two batches admitted together: [insert(a)], [insert(b)], then
    [distinguish_since([2])]. *)
Definition spine_ab : Result (Spine Z Z Z) :=
  rbind (insert spine0 batch_a) (fun s => rbind (insert s batch_b) (fun s => distinguish_since s [2])).

(** The merge of [batch_a] and [batch_b] begun at level 0. *)
Definition merge_ab : MergeState Z Z Z :=
  Double (InProgress batch_a batch_b (Some [0]) (mkMerger 2)).

(* ------------------------------------------------------------------ *)
(** ** dogsdogsdogs: [AltNeu], [propose_then], [propose], [validate] *)

(** Sum of [f] over a list. *)
Fixpoint zsum {A} (f : A -> Z) (l : list A) : Z :=
  match l with
  | [] => 0
  | x :: r => f x + zsum f r
  end.

Definition ind (b : bool) : Z := if b then 1 else 0.

Definition prod_eq_dec {A B} (da : forall x y : A, {x = y} + {x <> y})
    (db : forall x y : B, {x = y} + {x <> y}) : forall x y : A * B, {x = y} + {x <> y}.
Proof.
  intros [a b] [a' b'].
  destruct (da a a') as [->|Ha]; [|right; congruence].
  destruct (db b b') as [->|Hb]; [left; reflexivity | right; congruence].
Defined.

Definition unit_eq_dec : forall x y : unit, {x = y} + {x <> y}.
Proof. intros [] []; left; reflexivity. Defined.

(** Modelled from the spec: [AltNeu<T>] pairs an outer time with a tag,
    [alt] before [neu] at equal times: [(t1,r1) <= (t2,r2)] iff [t1 <= t2]
    and, when [t1 = t2], [r1 = alt] or [r2 = neu]. *)
Record AltNeu := mkAltNeu { time : Z; neu : bool }.

Definition AltNeu_alt (t : Z) : AltNeu := mkAltNeu t false.
Definition AltNeu_neu (t : Z) : AltNeu := mkAltNeu t true.

Definition altneu_less_equal (x y : AltNeu) : bool :=
  if time x =? time y then implb (neu x) (neu y) else time x <? time y.

Section Propose.
  Context {P K V D : Type} (K_eq_dec : forall x y : K, {x = y} + {x <> y})
    (V_eq_dec : forall x y : V, {x = y} + {x <> y}).

  (** Modelled from the spec: an arranged trace as the list of its updates
      [(key, val, time, diff)]; the accumulated count of [(k, v)] at the
      times [<= t]. *)
Definition trace_count (tr : list (K * V * AltNeu * Z)) (k : K) (v : V) (t : AltNeu) : Z :=
    zsum (fun '(k', v', t', d) =>
            if K_eq_dec k' k then
              if V_eq_dec v' v then (if altneu_less_equal t' t then d else 0) else 0
            else 0) tr.

  (** The distinct values a cursor visits under key [k]. *)
Definition trace_values (tr : list (K * V * AltNeu * Z)) (k : K) : list V :=
    nodup V_eq_dec
      (map (fun '(_, v, _, _) => v)
         (filter (fun '(k', _, _, _) => if K_eq_dec k' k then true else false) tr)).

  (** Modelled from the spec: [propose_then(extensions, arrangement,
      key_selector, logic)]: for each extension [(p, t, r)], every value [v]
      under [key_selector(p)] with a non-zero count at the times [<= t]
      yields [(logic(p, v), t, r * count)]. *)
Definition propose_then (extensions : list (P * AltNeu * Z))
      (arrangement : list (K * V * AltNeu * Z)) (key_selector : P -> K)
      (logic : P -> V -> D) : list (D * AltNeu * Z) :=
    flat_map (fun '(p, t, r) =>
      flat_map (fun v =>
        let count := trace_count arrangement (key_selector p) v t in
        if count =? 0 then [] else [(logic p v, t, r * count)])
        (trace_values arrangement (key_selector p)))
      extensions.
End Propose.

(** Modelled from the spec: [propose] pairs each prefix with each value. *)
Definition propose {P K V} (K_eq_dec : forall x y : K, {x = y} + {x <> y})
    (V_eq_dec : forall x y : V, {x = y} + {x <> y}) (extensions : list (P * AltNeu * Z))
    (arrangement : list (K * V * AltNeu * Z)) (key_selector : P -> K)
    : list ((P * V) * AltNeu * Z) :=
  propose_then K_eq_dec V_eq_dec extensions arrangement key_selector (fun p v => (p, v)).

(** [validate] (src/dogsdogsdogs/src/operators/validate.rs): [propose_then]
    keyed by [(key_selector(pre), val)] against an arrangement of unit
    values, mapping [((pre, val), ())] back to [(pre, val)]. *)
Definition validate {P K V} (K_eq_dec : forall x y : K, {x = y} + {x <> y})
    (V_eq_dec : forall x y : V, {x = y} + {x <> y})
    (extensions : list ((P * V) * AltNeu * Z))
    (arrangement : list ((K * V) * unit * AltNeu * Z)) (key_selector : P -> K)
    : list ((P * V) * AltNeu * Z) :=
  propose_then (prod_eq_dec K_eq_dec V_eq_dec) unit_eq_dec extensions arrangement
    (fun '(pre, val) => (key_selector pre, val))
    (fun '(pre, val) (_ : unit) => (pre, val)).

(** The reading of the spec: each extension [((p, v), t, r)] comes out with
    weight [r * count], [count] the existence count of [(key_fn(p), v)] at
    the times [<= t], and is dropped when that count is zero. *)
Definition validate_spec {P K V} (K_eq_dec : forall x y : K, {x = y} + {x <> y})
    (V_eq_dec : forall x y : V, {x = y} + {x <> y})
    (extensions : list ((P * V) * AltNeu * Z))
    (arrangement : list ((K * V) * unit * AltNeu * Z)) (key_fn : P -> K)
    : list ((P * V) * AltNeu * Z) :=
  flat_map (fun '((p, v), t, r) =>
    let count := trace_count (prod_eq_dec K_eq_dec V_eq_dec) unit_eq_dec
                   arrangement (key_fn p, v) tt t in
    if count =? 0 then [] else [((p, v), t, r * count)])
    extensions.

(* ------------------------------------------------------------------ *)
(** ** dogsdogsdogs/examples/delta_query.rs *)

(** Edges of the input collection, and its updates [(edge, time, diff)]
    at outer times. *)
Definition Edge : Type := (Z * Z)%type.
Definition edge_eq_dec : forall x y : Edge, {x = y} + {x <> y} := prod_eq_dec Z.eq_dec Z.eq_dec.
Definition triple_eq_dec : forall x y : Z * Z * Z, {x = y} + {x <> y} :=
  prod_eq_dec (prod_eq_dec Z.eq_dec Z.eq_dec) Z.eq_dec.

(** [edges.map(|(x,y)| (y,x))]. *)
Definition reverse (edges : list (Edge * Z * Z)) : list (Edge * Z * Z) :=
  map (fun '((x, y), t, r) => ((y, x), t, r)) edges.

(** [arrange_by_key] (key [x], value [y]) and [arrange_by_self] (key
    [(x, y)], value [()]). *)
Definition arrange_by_key (edges : list (Edge * Z * Z)) : list (Z * Z * Z * Z) :=
  map (fun '((x, y), t, r) => (x, y, t, r)) edges.
Definition arrange_by_self (edges : list (Edge * Z * Z)) : list (Edge * unit * Z * Z) :=
  map (fun '(e, t, r) => (e, tt, t, r)) edges.

(** [enter_at(inner, |_,_,t| f(t))] on an arrangement. *)
Definition enter_at {K V} (tr : list (K * V * Z * Z)) (f : Z -> AltNeu) : list (K * V * AltNeu * Z) :=
  map (fun '(k, v, t, r) => (k, v, f t, r)) tr.

(** Modelled from the spec: [edges.enter(inner)] lifts an outer time [t]
    to [AltNeu::alt(t)]. *)
Definition enter (edges : list (Edge * Z * Z)) : list (Edge * AltNeu * Z) :=
  map (fun '(e, t, r) => (e, AltNeu_alt t, r)) edges.

(** [leave()] drops the tag. *)
Definition leave {D} (c : list (D * AltNeu * Z)) : list (D * Z * Z) :=
  map (fun '(d, t, r) => (d, time t, r)) c.

Definition key1 (x : Edge) : Z := fst x.
Definition key2 (x : Edge) : Z := snd x.

(** [dQ/dE1 := dE1(a,b), E2(b,c), E3(a,c)]. *)
Definition changes1 (edges : list (Edge * Z * Z)) : list ((Z * Z * Z) * AltNeu * Z) :=
  let forward_key_neu := enter_at (arrange_by_key edges) AltNeu_neu in
  let forward_self_neu := enter_at (arrange_by_self edges) AltNeu_neu in
  let c := propose Z.eq_dec Z.eq_dec (enter edges) forward_key_neu key2 in
  let c := validate Z.eq_dec Z.eq_dec c forward_self_neu key1 in
  map (fun '(((a, b), c), t, r) => ((a, b, c), t, r)) c.

(** [dQ/dE2 := dE2(b,c), E1(a,b), E3(a,c)]. *)
Definition changes2 (edges : list (Edge * Z * Z)) : list ((Z * Z * Z) * AltNeu * Z) :=
  let reverse_key_alt := enter_at (arrange_by_key (reverse edges)) AltNeu_alt in
  let reverse_self_neu := enter_at (arrange_by_self (reverse edges)) AltNeu_neu in
  let c := propose Z.eq_dec Z.eq_dec (enter edges) reverse_key_alt key1 in
  let c := validate Z.eq_dec Z.eq_dec c reverse_self_neu key2 in
  map (fun '(((b, c), a), t, r) => ((a, b, c), t, r)) c.

(** [dQ/dE3 := dE3(a,c), E1(a,b), E2(b,c)]. *)
Definition changes3 (edges : list (Edge * Z * Z)) : list ((Z * Z * Z) * AltNeu * Z) :=
  let forward_key_alt := enter_at (arrange_by_key edges) AltNeu_alt in
  let reverse_self_alt := enter_at (arrange_by_self (reverse edges)) AltNeu_alt in
  let c := propose Z.eq_dec Z.eq_dec (enter edges) forward_key_alt key1 in
  let c := validate Z.eq_dec Z.eq_dec c reverse_self_alt key2 in
  map (fun '(((a, c), b), t, r) => ((a, b, c), t, r)) c.

(** [changes1.concat(&changes2).concat(&changes3).leave()]. *)
Definition triangles (edges : list (Edge * Z * Z)) : list ((Z * Z * Z) * Z * Z) :=
  leave (changes1 edges ++ changes2 edges ++ changes3 edges).

(** The accumulated weight of [x] in a collection at the times [<= tau]. *)
Definition accumulate {D} (D_eq_dec : forall x y : D, {x = y} + {x <> y})
    (c : list (D * Z * Z)) (x : D) (tau : Z) : Z :=
  zsum (fun '(d, t, r) => if D_eq_dec d x then (if t <=? tau then r else 0) else 0) c.

(** The sum of all weights of a collection. *)
Definition total_weight {D} (c : list (D * Z * Z)) : Z := zsum (fun '(_, _, r) => r) c.

(** The spec's count of triangles: sets [{x, y, z}] of three vertices,
    pairwise joined by an edge (in either direction) present at [tau]. *)
Definition vertices (edges : list (Edge * Z * Z)) : list Z :=
  nodup Z.eq_dec (flat_map (fun '((x, y), _, _) => [x; y]) edges).

Definition adjacent (edges : list (Edge * Z * Z)) (tau x y : Z) : bool :=
  (0 <? accumulate edge_eq_dec edges (x, y) tau) || (0 <? accumulate edge_eq_dec edges (y, x) tau).

Definition triangle_count (edges : list (Edge * Z * Z)) (tau : Z) : Z :=
  let vs := vertices edges in
  zsum (fun x => zsum (fun y => zsum (fun z =>
    ind ((x <? y) && (y <? z) && adjacent edges tau x y && adjacent edges tau y z
         && adjacent edges tau x z)) vs) vs) vs.

(** The diff of an edge update [u] if its edge is [e], and its time. *)
Definition edge_weight (e : Edge) (u : Edge * Z * Z) : Z :=
  if edge_eq_dec (fst (fst u)) e then snd u else 0.
Definition utime (u : Edge * Z * Z) : Z := snd (fst u).

(** The test "is [(a,b,c)] at an outer time [<= tau]" on the streams. *)
Definition at_tuple (x : Z * Z * Z) (tau : Z) (d : Z * Z * Z) (t : AltNeu) : Z :=
  if triple_eq_dec d x then ind (time t <=? tau) else 0.

(** One directed triangle, [1 -> 2 -> 3] and [1 -> 3], inserted at time 0. *)
Definition triangle_edges : list (Edge * Z * Z) := [((1, 2), 0, 1); ((2, 3), 0, 1); ((1, 3), 0, 1)].

(* ------------------------------------------------------------------ *)
(** * Proofs *)

(** ** Lemmas on the lattice model *)

Lemma usize_laws : LatticeLaws Z.
Proof.
  constructor; cbn; intros;
    repeat match goal with H : (_ <=? _) = true |- _ => apply Z.leb_le in H end;
    try apply Z.leb_le; lia.
Qed.

Lemma product_laws {T1 T2} `{L1 : Lattice T1} `{L2 : Lattice T2} :
  LatticeLaws T1 -> LatticeLaws T2 -> LatticeLaws (Product T1 T2).
Proof.
  intros H1 H2; constructor; cbn; intros;
    repeat match goal with
           | H : _ && _ = true |- _ => apply andb_true_iff in H; destruct H
           | |- _ && _ = true => apply andb_true_iff; split
           end.
  all: eauto using le_refl, le_trans, join_ub_l, join_ub_r, join_lub,
                   meet_lb_l, meet_lb_r, meet_glb.
  destruct a as [a1 a2], b as [b1 b2]; cbn in *; f_equal; eauto using le_antisym.
Qed.

Section AdvanceBy.
  Context {T : Type} `{Lattice T} (HL : LatticeLaws T).

Lemma fold_meet_le t rest acc :
    less_equal (fold_left (fun r f => meet r (join t f)) rest acc) acc = true.
  Proof.
    revert acc; induction rest as [|f rest IH]; intros acc; cbn.
    - apply (le_refl _ HL).
    - eapply (le_trans _ HL); [apply IH | apply (meet_lb_l _ HL)].
  Qed.

Lemma fold_meet_below t rest acc f :
    In f rest ->
    less_equal (fold_left (fun r g => meet r (join t g)) rest acc) (join t f) = true.
  Proof.
    revert acc; induction rest as [|g rest IH]; intros acc Hin; cbn in *.
    - contradiction.
    - destruct Hin as [<-|Hin]; [|apply IH; assumption].
      eapply (le_trans _ HL); [apply fold_meet_le | apply (meet_lb_r _ HL)].
  Qed.

Lemma fold_meet_above t rest acc c :
    less_equal c acc = true ->
    (forall f, In f rest -> less_equal c (join t f) = true) ->
    less_equal c (fold_left (fun r f => meet r (join t f)) rest acc) = true.
  Proof.
    revert acc; induction rest as [|g rest IH]; intros acc Hc Hall; cbn in *.
    - assumption.
    - apply IH; [apply (meet_glb _ HL); auto | auto].
  Qed.

Lemma advance_by_below t f0 rest f :
    In f (f0 :: rest) -> less_equal (advance_by t (f0 :: rest)) (join t f) = true.
  Proof.
    cbn; intros [<-|Hin]; [apply fold_meet_le | apply fold_meet_below; auto].
  Qed.

Lemma advance_by_ge t f0 rest : less_equal t (advance_by t (f0 :: rest)) = true.
  Proof.
    cbn; apply fold_meet_above; [apply (join_ub_l _ HL)|].
    intros; apply (join_ub_l _ HL).
  Qed.

Lemma advance_by_greatest t f0 rest c :
    (forall f, In f (f0 :: rest) -> less_equal c (join t f) = true) ->
    less_equal c (advance_by t (f0 :: rest)) = true.
  Proof.
    intros Hall; cbn; apply fold_meet_above; [apply Hall; left; auto|].
    intros; apply Hall; right; auto.
  Qed.
End AdvanceBy.

(* ------------------------------------------------------------------ *)
(** ** Claims on [advance_by] *)

(** C1: for a non-empty frontier [F], [advance_by t F] is at least [t],
    indistinguishable from [t] for every time above some element of [F],
    the largest such time, and the unique one with these properties; for the
    empty frontier it is [maximum]. *)
Theorem advance_by_largest_indistinguishable {T} `{Lattice T}
    (HL : LatticeLaws T) (t : T) (F : list T) (HF : F <> []) :
  let a := advance_by t F in
  less_equal t a = true /\ indistinguishable F t a /\
  (forall t', less_equal t t' = true -> indistinguishable F t t' ->
     less_equal t' a = true) /\
  (forall t', less_equal t t' = true -> indistinguishable F t t' ->
     (forall t'', less_equal t t'' = true -> indistinguishable F t t'' ->
        less_equal t'' t' = true) -> t' = a) /\
  advance_by t [] = maximum.
Proof.
  destruct F as [|f0 rest]; [contradiction|]; cbn zeta.
  assert (Hge := advance_by_ge HL t f0 rest).
  assert (Hind : indistinguishable (f0 :: rest) t (advance_by t (f0 :: rest))).
  { intros q Hq; apply existsb_exists in Hq; destruct Hq as [f [Hin Hfq]].
    destruct (less_equal t q) eqn:Htq; symmetry.
    - eapply (le_trans _ HL); [apply (advance_by_below HL t f0 rest f Hin)|].
      apply (join_lub _ HL); assumption.
    - destruct (less_equal (advance_by t (f0 :: rest)) q) eqn:Haq; [|reflexivity].
      rewrite <- Htq; symmetry; eapply (le_trans _ HL); eassumption. }
  assert (Hgreat : forall t', less_equal t t' = true ->
     indistinguishable (f0 :: rest) t t' ->
     less_equal t' (advance_by t (f0 :: rest)) = true).
  { intros t' Htt' Hind'; apply advance_by_greatest; [exact HL|].
    intros f Hin.
    assert (Hq : existsb (fun g => less_equal g (join t f)) (f0 :: rest) = true).
    { apply existsb_exists; exists f; split; [auto | apply (join_ub_r _ HL)]. }
    rewrite <- (Hind' _ Hq); apply (join_ub_l _ HL). }
  repeat split; auto.
  intros t' Htt' Hind' Hmax.
  apply (le_antisym _ HL); [apply Hgreat; auto | apply Hmax; auto].
Qed.

(** Witness: the example of the rustdoc of [advance_by], with product times
    [(3,7)] against the frontier [[(4,8); (5,3)]], which yields [(4,7)]. *)
Lemma advance_by_largest_indistinguishable_witness :
  advance_by (Build_Product 3 7) [Build_Product 4 8; Build_Product 5 3]
    = Build_Product 4 7 /\
  (let a := advance_by (Build_Product 3 7) [Build_Product 4 8; Build_Product 5 3] in
   less_equal (Build_Product 3 7) a = true /\
   indistinguishable [Build_Product 4 8; Build_Product 5 3] (Build_Product 3 7) a /\
   (forall t', less_equal (Build_Product 3 7) t' = true ->
      indistinguishable [Build_Product 4 8; Build_Product 5 3] (Build_Product 3 7) t' ->
      less_equal t' a = true) /\
   (forall t', less_equal (Build_Product 3 7) t' = true ->
      indistinguishable [Build_Product 4 8; Build_Product 5 3] (Build_Product 3 7) t' ->
      (forall t'', less_equal (Build_Product 3 7) t'' = true ->
         indistinguishable [Build_Product 4 8; Build_Product 5 3] (Build_Product 3 7) t'' ->
         less_equal t'' t' = true) -> t' = a) /\
   advance_by (Build_Product (3:Z) (7:Z)) [] = maximum).
Proof.
  split; [reflexivity|].
  apply (advance_by_largest_indistinguishable (product_laws usize_laws usize_laws)).
  discriminate.
Defined.

(* ------------------------------------------------------------------ *)
(** ** Lemmas on the Spine model *)

Section SpineLemmas.
  Context {K V T : Type} `{EqB K} `{EqB V} `{EqB T} `{Default T} `{Lattice T}.

Lemma run_ms_ok (m : LM K V T unit) (s s' : Spine K V T) :
    run_ms m s = Ok s' -> exists ms, s' = with_merging s ms.
  Proof.
    unfold run_ms; destruct (m (merging s)) as [[[] ms]|e]; intros Hs;
      inversion Hs; eauto.
  Qed.

  (** [consider_merges] only moves a prefix of [pending], each of whose
      batches has its [upper] at or below the through frontier, into the
      layers; it changes none of the frontiers. *)
Lemma consider_merges_loop_ok (c : nat) (s s' : Spine K V T) :
    consider_merges_loop c s = Ok s' ->
    through_frontier s' = through_frontier s /\
    advance_frontier s' = advance_frontier s /\
    spine_upper s' = spine_upper s /\
    exists n, pending s' = skipn n (pending s) /\
      forall x, In x (firstn n (pending s)) ->
        frontier_ge (through_frontier s) (upper x) = true.
  Proof.
    revert s; induction c as [|c IH]; intros s Hs; cbn in Hs.
    - inversion Hs; subst; repeat split; auto; exists O; split; [reflexivity|].
      intros x [].
    - destruct (pending s) as [|b rest] eqn:Hp.
      + inversion Hs; subst; repeat split; auto; exists O; rewrite Hp; split;
          [reflexivity | intros x []].
      + destruct (frontier_ge (through_frontier s) (upper b)) eqn:Hge.
        * destruct (run_ms _ (with_pending s rest)) as [s1|e] eqn:Hr; [|discriminate].
          apply run_ms_ok in Hr; destruct Hr as [ms ->].
          destruct (IH _ Hs) as (Ht & Ha & Hu & n & Hpn & Hall); cbn in *.
          repeat split; auto.
          exists (S n); cbn; split; [exact Hpn|].
          intros x [<-|Hin]; [exact Hge|]; apply Hall; exact Hin.
        * inversion Hs; subst; repeat split; auto; exists O; rewrite Hp; split;
            [reflexivity | intros x []].
  Qed.

  (** A successful [insert] checked contiguity, set [upper] and appended the
      batch to [pending], of which [consider_merges] admitted a prefix. *)
Lemma insert_ok (s s' : Spine K V T) (b : Batch K V T) :
    insert s b = Ok s' ->
    list_eqb (lower b) (spine_upper s) = true /\
    spine_upper s' = upper b /\
    through_frontier s' = through_frontier s /\
    exists n, pending s' = skipn n (pending s ++ [b]) /\
      forall x, In x (firstn n (pending s ++ [b])) ->
        frontier_ge (through_frontier s) (upper x) = true.
  Proof.
    unfold insert.
    destruct (list_eqb (lower b) (upper b)); [discriminate|].
    destruct (list_eqb (lower b) (spine_upper s)) eqn:Hlo; [|discriminate]; cbn.
    intros Hs; apply consider_merges_loop_ok in Hs; cbn in Hs.
    destruct Hs as (Ht & _ & Hu & Hrest); auto.
  Qed.

Lemma pending_through_spec (up : list T) (p : list (Batch K V T)) :
    match pending_through up p with
    | Ok l => l = filter (included up) p /\ forall b, In b p -> straddles up b = false
    | Panic _ => exists b, In b p /\ straddles up b = true
    end.
  Proof.
    induction p as [|b rest IH]; cbn.
    - split; [reflexivity | intros b []].
    - unfold straddles at 1, included at 1.
      destruct (is_empty b) eqn:He; cbn.
      + destruct (pending_through up rest) as [l|e].
        * destruct IH as [-> IH]; split; [reflexivity|].
          intros x [<-|Hin]; [rewrite He; reflexivity | exact (IH x Hin)].
        * destruct IH as (x & Hin & Hx); eauto.
      + destruct (negb (Bool.eqb _ _) && negb (list_eqb up (lower b))) eqn:Hst.
        * exists b; split; [left; reflexivity|].
          unfold straddles; rewrite He; exact Hst.
        * destruct (pending_through up rest) as [l|e].
          -- destruct IH as [-> IH]; split.
             ++ destruct (frontier_ge up (upper b)); reflexivity.
             ++ intros x [<-|Hin]; [rewrite He; exact Hst | exact (IH x Hin)].
          -- destruct IH as (x & Hin & Hx); eauto.
  Qed.
End SpineLemmas.

(* ------------------------------------------------------------------ *)
(** ** Claims on the Spine *)

(** C2 (counterexample): after [advance_by([])] on a fresh Spine, the next
    [cursor_through] panics on its assertion instead of returning an empty
    cursor. *)
Lemma advance_by_empty_then_cursor_panics :
  cursor_through (spine_advance_by spine0 []) [0] =
    Panic "assertion failed: self.advance_frontier.len() > 0"%string /\
  ~ (exists c, cursor_through (spine_advance_by spine0 []) [0] = Ok (Some c)).
Proof.
  split; [reflexivity|]. intros [c Hc]; discriminate Hc.
Qed.

(** C2 (amended): [advance_by([])] drops every batch, of the layers and of
    the pending queue, and empties the advance frontier, so that every later
    [cursor_through] (for any [upper]) panics on the assertion that the
    advance frontier is non-empty. *)
Theorem advance_by_empty_drops_state {K V T} `{EqB K} `{EqB V} `{EqB T} `{Default T}
    `{Lattice T} (s : Spine K V T) :
  let s' := spine_advance_by s [] in
  merging s' = [] /\ pending s' = [] /\ advance_frontier s' = [] /\
  forall up, exists msg, cursor_through s' up = Panic msg.
Proof.
  cbn; repeat split; intros up; eexists; reflexivity.
Qed.

(** C10: [cursor_through] never returns [None]: it panics or returns
    [Some] cursor. *)
Theorem cursor_through_never_none {K V T} `{EqB K} `{EqB V} `{EqB T} `{Default T}
    `{Lattice T} (s : Spine K V T) (up : list T) :
  cursor_through s up <> Ok None.
Proof.
  unfold cursor_through.
  destruct (Nat.eqb _ 0); [discriminate|].
  destruct (negb (frontier_ge up (through_frontier s))); [discriminate|].
  destruct (pending_through up (pending s)); discriminate.
Qed.

Lemma cursor_through_never_none_witness :
  cursor_through spine0 [0] = Ok (Some []) /\ cursor_through spine0 [0] <> Ok None.
Proof.
  split; [reflexivity | apply cursor_through_never_none].
Defined.

(** C3 (counterexample): an inserted batch with no records over [[0,1)] is
    not part of the cursor returned by [cursor_through([1])], although [[1]]
    dominates its upper frontier. *)
Lemma cursor_through_skips_empty_batch :
  exists s, insert spine0 batch_empty = Ok s /\ In batch_empty (pending s) /\
    frontier_ge [1] (upper batch_empty) = true /\
    cursor_through s [1] = Ok (Some []).
Proof.
  eexists; split; [reflexivity|]. cbn. repeat split; auto.
Qed.

(** C3 (amended): [cursor_through(upper)] panics when the advance frontier
    is empty or [upper] does not dominate the through frontier; otherwise it
    panics exactly when some non-empty pending batch is straddled (upper
    dominates one of its frontiers but not the other and differs from its
    lower), and else returns the non-empty batches of every layer (unfiltered)
    followed by the non-empty pending batches whose upper [upper] dominates;
    batches with no record are never included. *)
Theorem cursor_through_selection {K V T} `{EqB K} `{EqB V} `{EqB T} `{Default T}
    `{Lattice T} (s : Spine K V T) (up : list T) :
  (advance_frontier s = [] -> exists msg, cursor_through s up = Panic msg) /\
  (advance_frontier s <> [] -> frontier_ge up (through_frontier s) = false ->
     exists msg, cursor_through s up = Panic msg) /\
  (advance_frontier s <> [] -> frontier_ge up (through_frontier s) = true ->
     ((exists b, In b (pending s) /\ straddles up b = true) ->
        exists msg, cursor_through s up = Panic msg) /\
     ((forall b, In b (pending s) -> straddles up b = false) ->
        cursor_through s up =
          Ok (Some (flat_map layer_batches (rev (merging s)) ++
                    filter (included up) (pending s))))).
Proof.
  unfold cursor_through.
  split; [intros ->; eexists; reflexivity|].
  assert (Hne : advance_frontier s <> [] -> Nat.eqb (List.length (advance_frontier s)) 0 = false)
    by (destruct (advance_frontier s); [congruence | reflexivity]).
  split.
  - intros Ha Hg; rewrite (Hne Ha), Hg; eexists; reflexivity.
  - intros Ha Hg; rewrite (Hne Ha), Hg; cbn.
    pose proof (pending_through_spec up (pending s)) as Hspec.
    destruct (pending_through up (pending s)) as [l|e].
    + destruct Hspec as [-> Hall]; split; [|reflexivity].
      intros (b & Hin & Hb); rewrite (Hall b Hin) in Hb; discriminate.
    + split; [eexists; reflexivity|].
      destruct Hspec as (b & Hin & Hb); intros Hall; rewrite (Hall b Hin) in Hb; discriminate.
Qed.

Lemma cursor_through_selection_witness :
  exists s, insert spine0 batch_a = Ok s /\
    cursor_through s [1] =
      Ok (Some (flat_map layer_batches (rev (merging s)) ++
                filter (included [1]) (pending s))).
Proof.
  eexists; split; [reflexivity|].
  apply (proj2 (proj2 (cursor_through_selection _ [1])));
    [discriminate | reflexivity |].
  intros b [<-|[]]; reflexivity.
Defined.

(** C4: [insert] panics when the batch's lower frontier differs from the
    Spine's upper frontier; when it succeeds, the batch was contiguous, the
    Spine's upper frontier is the batch's upper frontier, and the batch was
    appended to the pending queue, of which only a prefix of batches whose
    upper frontiers are at or below the through frontier moved into the
    layers. *)
Theorem insert_contiguous {K V T} `{EqB K} `{EqB V} `{EqB T} `{Default T}
    `{Lattice T} (s : Spine K V T) (b : Batch K V T) :
  (list_eqb (lower b) (spine_upper s) = false -> exists msg, insert s b = Panic msg) /\
  (forall s', insert s b = Ok s' ->
     list_eqb (lower b) (spine_upper s) = true /\
     spine_upper s' = upper b /\
     exists n, pending s' = skipn n (pending s ++ [b]) /\
       forall x, In x (firstn n (pending s ++ [b])) ->
         frontier_ge (through_frontier s) (upper x) = true).
Proof.
  split.
  - intros Hne; unfold insert; rewrite Hne.
    destruct (list_eqb (lower b) (upper b)); eexists; reflexivity.
  - intros s' Hs; destruct (insert_ok s s' b Hs) as (Hl & Hu & _ & Hp); auto.
Qed.

Lemma insert_contiguous_witness :
  (exists msg, insert spine0 batch_b = Panic msg) /\
  exists s', insert spine0 batch_a = Ok s' /\ spine_upper s' = [1] /\
    exists n, pending s' = skipn n ([] ++ [batch_a]) /\
      forall x, In x (firstn n ([] ++ [batch_a])) -> frontier_ge [0] (upper x) = true.
Proof.
  split; [apply (proj1 (insert_contiguous spine0 batch_b)); reflexivity|].
  eexists; split; [reflexivity|].
  apply (proj2 (insert_contiguous spine0 batch_a)); reflexivity.
Defined.

(** C5 (counterexample): on a fresh Spine (upper [[0]]), [close] builds a
    batch whose upper frontier is the empty frontier, not [[0]]; a batch with
    [lower = upper = [0]] would make [insert] panic. *)
Lemma close_batch_upper_is_empty :
  close_batch spine0 = Some (mkBatch [0] [] []) /\
  upper (mkBatch (K:=Z) (V:=Z) [0] [] []) <> spine_upper spine0 /\
  exists msg, insert spine0 (mkBatch [0] [0] []) = Panic msg.
Proof.
  split; [reflexivity|]. split; [discriminate|]. eexists; reflexivity.
Qed.

(** C5 (amended): [close] does nothing when the Spine's upper frontier is
    already empty; otherwise it inserts an empty batch whose lower frontier is
    the Spine's upper frontier and whose upper frontier is the empty frontier,
    so that after a successful [close] the Spine's upper frontier is empty. *)
Theorem close_seals_with_empty_upper {K V T} `{EqB K} `{EqB V} `{EqB T} `{Default T}
    `{Lattice T} (s : Spine K V T) :
  (spine_upper s = [] -> close s = Ok s) /\
  (forall b, close_batch s = Some b ->
     lower b = spine_upper s /\ upper b = [] /\ updates b = [] /\ close s = insert s b) /\
  (forall s', close s = Ok s' -> spine_upper s' = []).
Proof.
  unfold close, close_batch.
  split; [intros ->; reflexivity|].
  split.
  - destruct (spine_upper s) eqn:Hu; [discriminate|].
    intros b Hb; inversion Hb; subst; cbn; auto.
  - destruct (spine_upper s) eqn:Hu.
    + intros s' Hs; inversion Hs; subst; exact Hu.
    + intros s' Hs; destruct (insert_ok _ _ _ Hs) as (_ & Hu' & _); exact Hu'.
Qed.

Lemma close_seals_with_empty_upper_witness :
  exists s', close spine0 = Ok s' /\ spine_upper s' = [].
Proof.
  eexists; split; [reflexivity|].
  apply (proj2 (proj2 (close_seals_with_empty_upper spine0))); reflexivity.
Defined.


(** C6 (counterexample): the Spine reached by [spine_abc_exerted] is reduced
    (one non-empty layer, no merge), yet [exert(1)] changes its layers:
    [tidy_layers] drops two vacant layers below the top batch. *)
Lemma exert_on_reduced_spine_changes_layers :
  spine_abc_exerted = Ok spine_reduced /\ reduced (merging spine_reduced) = true /\
  exert spine_reduced 1 = Ok spine_tidied /\ spine_tidied <> spine_reduced.
Proof.
  split; [vm_compute; reflexivity|].
  split; [vm_compute; reflexivity|].
  split; [vm_compute; reflexivity|].
  discriminate.
Qed.

(** C6 (amended): [exert] first runs [tidy_layers]; if the tidied Spine is
    reduced, that is all it does; otherwise it applies [effort] as fuel to
    the merges when some layer is merging, and else introduces a virtual
    empty batch at level [trailing_zeros(next_power_of_two(effort))]. *)
Theorem exert_tidies_then_checks_reduced {K V T} `{EqB K} `{EqB V} `{EqB T}
    `{Default T} `{Lattice T} (s s1 : Spine K V T) (eff : Z)
    (Htidy : run_ms (tidy_layers (advance_frontier s)) s = Ok s1) :
  (reduced (merging s1) = true -> exert s eff = Ok s1) /\
  (reduced (merging s1) = false -> existsb is_double (merging s1) = true ->
     exert s eff = run_ms (apply_fuel (advance_frontier s1) eff) s1) /\
  (reduced (merging s1) = false -> existsb is_double (merging s1) = false ->
     exert s eff = run_ms (introduce_batch (advance_frontier s1) (effort s1) None
                             (level_of (usize_of_isize eff))) s1).
Proof.
  unfold exert; rewrite Htidy.
  split; [intros ->; reflexivity|].
  split; intros -> Hd; rewrite Hd; reflexivity.
Qed.

Lemma exert_tidies_then_checks_reduced_witness :
  run_ms (tidy_layers (advance_frontier spine_reduced)) spine_reduced = Ok spine_tidied /\
  reduced (merging spine_tidied) = true /\ exert spine_reduced 1 = Ok spine_tidied.
Proof.
  split; [vm_compute; reflexivity|].
  split; [vm_compute; reflexivity|].
  apply (proj1 (exert_tidies_then_checks_reduced spine_reduced spine_tidied 1
                  ltac:(vm_compute; reflexivity))).
  vm_compute; reflexivity.
Defined.

(* ------------------------------------------------------------------ *)
(** ** Lemmas on the layers touched by [insert_at], [complete_at], [roll_up] *)

Section LayerLemmas.
  Context {K V T : Type} {EqK : EqB K} {EqV : EqB V} {EqT : EqB T} {DefT : Default T} {LatT : Lattice T}.

Lemma bind_ok {A B} (m : LM K V T A) (f : A -> LM K V T B) ms b ms' :
    bind m f ms = Ok (b, ms') -> exists a ms1, m ms = Ok (a, ms1) /\ f a ms1 = Ok (b, ms').
  Proof.
    unfold bind; destruct (m ms) as [[a ms1]|e]; [eauto | discriminate].
  Qed.

Lemma ensure_len_ok i ms u ms' :
    ensure_len (K:=K) (V:=V) (T:=T) i ms = Ok (u, ms') -> forall j, slot ms' j = slot ms j.
  Proof.
    unfold ensure_len, slot; intros Hs j; inversion Hs; subst.
    destruct (Nat.lt_ge_cases j (List.length ms)).
    - apply app_nth1; assumption.
    - rewrite app_nth2 by assumption. rewrite nth_repeat.
      symmetry; apply nth_overflow; assumption.
  Qed.

Lemma ensure_len_eq i ms u ms' :
    ensure_len (K:=K) (V:=V) (T:=T) i ms = Ok (u, ms') ->
    ms' = ms ++ repeat Vacant (S i - List.length ms).
  Proof. unfold ensure_len; intros E; inversion E; reflexivity. Qed.

Lemma set_nth_same (l : list (MergeState K V T)) i x j :
    j <> i -> nth j (set_nth l i x) Vacant = nth j l Vacant.
  Proof.
    revert i j; induction l as [|y l IH]; intros i j Hne; [reflexivity|].
    destruct i, j; cbn; auto; congruence.
  Qed.

Lemma set_nth_here (l : list (MergeState K V T)) i x :
    (i < List.length l)%nat -> nth i (set_nth l i x) Vacant = x.
  Proof.
    revert i; induction l as [|y l IH]; intros i Hi; cbn in *; [lia|].
    destruct i; cbn; [reflexivity | apply IH; lia].
  Qed.

Lemma index_set_ok i x ms u ms' :
    index_set (K:=K) (V:=V) (T:=T) i x ms = Ok (u, ms') ->
    slot ms' i = x /\ forall j, j <> i -> slot ms' j = slot ms j.
  Proof.
    unfold index_set, slot; destruct (Nat.ltb i (List.length ms)) eqn:Hi; [|discriminate].
    intros Hs; inversion Hs; subst; apply Nat.ltb_lt in Hi.
    split; [apply set_nth_here; exact Hi | intros; apply set_nth_same; auto].
  Qed.

Lemma index_get_ok i ms x ms' :
    index_get (K:=K) (V:=V) (T:=T) i ms = Ok (x, ms') -> ms' = ms /\ x = slot ms i.
  Proof.
    unfold index_get, slot; destruct (nth_error ms i) as [y|] eqn:Hn; [|discriminate].
    intros Hs; inversion Hs; subst; split; [reflexivity|].
    symmetry; apply nth_error_nth; exact Hn.
  Qed.

Lemma take_ok i ms x ms' :
    take (K:=K) (V:=V) (T:=T) i ms = Ok (x, ms') ->
    x = slot ms i /\ slot ms' i = Vacant /\ forall j, j <> i -> slot ms' j = slot ms j.
  Proof.
    unfold take; intros Hs.
    destruct (bind_ok _ _ _ _ _ Hs) as (y & ms1 & H1 & H2).
    destruct (index_get_ok _ _ _ _ H1) as [-> ->].
    destruct (bind_ok _ _ _ _ _ H2) as ([] & ms2 & H3 & H4).
    unfold ret in H4; inversion H4; subst.
    destruct (index_set_ok _ _ _ _ _ H3); auto.
  Qed.

Lemma lift_ok {A} (r : Result A) ms a ms' :
    lift (K:=K) (V:=V) (T:=T) r ms = Ok (a, ms') -> r = Ok a /\ ms' = ms.
  Proof.
    unfold lift; destruct r; intros Hs; inversion Hs; auto.
  Qed.

  (** [insert_at] succeeds only on a [Vacant] or [Single] layer and leaves
      every other layer as it was. *)
Lemma insert_at_ok af batch i ms u ms' :
    insert_at (K:=K) (V:=V) af batch i ms = Ok (u, ms') ->
    (slot ms i = Vacant \/ exists o, slot ms i = Single o) /\
    forall j, j <> i -> slot ms' j = slot ms j.
  Proof.
    unfold insert_at; intros Hs.
    destruct (bind_ok _ _ _ _ _ Hs) as ([] & ms1 & H1 & H2).
    pose proof (ensure_len_ok _ _ _ _ H1) as E1.
    destruct (bind_ok _ _ _ _ _ H2) as (st & ms2 & H3 & H4).
    destruct (take_ok _ _ _ _ H3) as (Hst & _ & E2).
    rewrite <- E1, <- Hst.
    destruct st as [|o|v].
    - split; [left; reflexivity|].
      intros j Hj; destruct (index_set_ok _ _ _ _ _ H4) as [_ E3].
      rewrite E3, E2, E1 by exact Hj; reflexivity.
    - split; [right; eauto|].
      destruct (bind_ok _ _ _ _ _ H4) as (m & ms3 & H5 & H6).
      destruct (lift_ok _ _ _ _ H5) as [_ ->].
      intros j Hj; destruct (index_set_ok _ _ _ _ _ H6) as [_ E3].
      rewrite E3, E2, E1 by exact Hj; reflexivity.
    - discriminate.
  Qed.

  (** [complete_at] empties its layer and leaves every other layer. *)
Lemma complete_at_ok i ms r ms' :
    complete_at (K:=K) (V:=V) (T:=T) i ms = Ok (r, ms') ->
    slot ms' i = Vacant /\ forall j, j <> i -> slot ms' j = slot ms j.
  Proof.
    unfold complete_at; intros Hs.
    destruct (bind_ok _ _ _ _ _ Hs) as (st & ms1 & H1 & H2).
    destruct (take_ok _ _ _ _ H1) as (_ & V1 & E1).
    destruct (bind_ok _ _ _ _ _ H2) as (o & ms2 & H3 & H4).
    destruct (lift_ok _ _ _ _ H3) as [_ ->].
    unfold ret in H4; inversion H4; subst; auto.
  Qed.

Lemma roll_up_loop_ok af c : forall i merged ms r ms',
    roll_up_loop (K:=K) (V:=V) af i c merged ms = Ok (r, ms') ->
    (forall j, (i <= j < i + c)%nat -> slot ms' j = Vacant) /\
    (forall j, (j < i \/ i + c <= j)%nat -> slot ms' j = slot ms j).
  Proof.
    induction c as [|c IH]; intros i merged ms r ms' Hs; cbn in Hs.
    - inversion Hs; subst; split; [intros; lia | auto].
    - destruct (bind_ok _ _ _ _ _ Hs) as ([] & ms1 & H1 & H2).
      destruct (insert_at_ok _ _ _ _ _ _ H1) as [_ E1].
      destruct (bind_ok _ _ _ _ _ H2) as (m' & ms2 & H3 & H4).
      destruct (complete_at_ok _ _ _ _ H3) as [V2 E2].
      destruct (IH _ _ _ _ _ H4) as [V3 E3].
      split.
      + intros j Hj; destruct (Nat.eq_dec j i) as [->|Hne].
        * rewrite E3 by lia; exact V2.
        * apply V3; lia.
      + intros j Hj; rewrite E3 by lia; rewrite E2 by lia; apply E1; lia.
  Qed.

  (** After a successful [roll_up(index)], every layer below [index] is
      vacant. *)
Lemma roll_up_ok af index ms u ms' :
    roll_up (K:=K) (V:=V) af index ms = Ok (u, ms') ->
    forall j, (j < index)%nat -> slot ms' j = Vacant.
  Proof.
    unfold roll_up; intros Hs.
    destruct (bind_ok _ _ _ _ _ Hs) as ([] & ms1 & H1 & H2).
    destruct (bind_ok _ _ _ _ _ H2) as (ms0 & ms2 & H3 & H4).
    unfold get_ms in H3; inversion H3; subst ms0 ms2.
    destruct (existsb (fun m => negb (is_vacant m)) (firstn index ms1)) eqn:Hex.
    - destruct (bind_ok _ _ _ _ _ H4) as (merged & ms3 & H5 & H6).
      destruct (roll_up_loop_ok _ _ _ _ _ _ _ H5) as [V5 _].
      destruct (bind_ok _ _ _ _ _ H6) as ([] & ms4 & H7 & H8).
      destruct (insert_at_ok _ _ _ _ _ _ H7) as [_ E7].
      destruct (bind_ok _ _ _ _ _ H8) as (st & ms5 & H9 & H10).
      destruct (index_get_ok _ _ _ _ H9) as [-> _].
      intros j Hj.
      destruct (is_double st).
      + destruct (bind_ok _ _ _ _ _ H10) as (m' & ms6 & H11 & H12).
        destruct (complete_at_ok _ _ _ _ H11) as [_ E11].
        destruct (insert_at_ok _ _ _ _ _ _ H12) as [_ E12].
        rewrite E12, E11, E7 by lia; apply V5; lia.
      + unfold ret in H10; inversion H10; subst.
        rewrite E7 by lia; apply V5; lia.
    - unfold ret in H4; inversion H4; subst.
      intros j Hj.
      assert (Hlen : (index < List.length ms')%nat).
      { rewrite (ensure_len_eq _ _ _ _ H1), length_app, repeat_length; lia. }
      assert (Hin : In (slot ms' j) (firstn index ms')).
      { unfold slot.
        assert (Heq : nth j (firstn index ms') Vacant = nth j ms' Vacant).
        { rewrite nth_firstn. apply Nat.ltb_lt in Hj. rewrite Hj. reflexivity. }
        rewrite <- Heq; apply nth_In; rewrite length_firstn; lia. }
      destruct (slot ms' j) eqn:Hsj; [reflexivity| |];
        (exfalso;
         assert (Hf : existsb (fun m => negb (is_vacant m)) (firstn index ms') = true)
           by (apply existsb_exists; eexists; split; [exact Hin | reflexivity]);
         congruence).
  Qed.
End LayerLemmas.

Section LayerPlacement.
  Context {K V T : Type} {EqK : EqB K} {EqV : EqB V} {EqT : EqB T} {DefT : Default T} {LatT : Lattice T}.

  (** What [insert_at] leaves in its own layer: the batch alone in a vacant
      layer, or the merge begun with the batch already there. *)
Lemma insert_at_slot af batch i ms u ms' :
    insert_at (K:=K) (V:=V) af batch i ms = Ok (u, ms') ->
    (slot ms i = Vacant /\ slot ms' i = Single batch) \/
    (exists o m, slot ms i = Single o /\ begin_merge o batch (Some af) = Ok m /\ slot ms' i = m).
  Proof.
    unfold insert_at; intros Hs.
    destruct (bind_ok _ _ _ _ _ Hs) as ([] & ms1 & H1 & H2).
    pose proof (ensure_len_ok _ _ _ _ H1) as E1.
    destruct (bind_ok _ _ _ _ _ H2) as (st & ms2 & H3 & H4).
    destruct (take_ok _ _ _ _ H3) as (Hst & _ & _).
    rewrite <- E1, <- Hst.
    destruct st as [|o|v].
    - left; split; [reflexivity|].
      destruct (index_set_ok _ _ _ _ _ H4) as [S3 _]; exact S3.
    - right; exists o.
      destruct (bind_ok _ _ _ _ _ H4) as (m & ms3 & H5 & H6).
      destruct (lift_ok _ _ _ _ H5) as [Hm ->].
      exists m; split; [reflexivity | split; [exact Hm|]].
      destruct (index_set_ok _ _ _ _ _ H6) as [S3 _]; exact S3.
    - discriminate.
  Qed.
End LayerPlacement.

(** [x & x.wrapping_neg()] isolates the lowest set bit; for a power of two
    it is the number itself. *)
Lemma land_pow2_opp (k : Z) : 0 <= k -> Z.land (2 ^ k) (- 2 ^ k) = 2 ^ k.
Proof.
  intros Hk; apply Z.bits_inj'; intros n Hn.
  rewrite Z.land_spec, Z.bits_opp by assumption.
  rewrite Z.pow2_bits_eqb by assumption.
  replace (Z.pred (2 ^ k)) with (Z.ones k) by (rewrite Z.ones_equiv; reflexivity).
  rewrite Z.testbit_ones_nonneg by assumption.
  destruct (Z.eqb_spec k n) as [->|Hne]; cbn.
  - rewrite Z.ltb_irrefl; reflexivity.
  - reflexivity.
Qed.

Lemma trailing_zeros_pow2 (k : Z) : 0 <= k -> trailing_zeros (2 ^ k) = k.
Proof.
  intros Hk; unfold trailing_zeros.
  assert (Hp : 0 < 2 ^ k) by (apply Z.pow_pos_nonneg; lia).
  destruct (Z.eqb_spec (2 ^ k) 0) as [E|_]; [lia|].
  rewrite land_pow2_opp, Z.log2_pow2 by assumption; reflexivity.
Qed.

(** The level of a batch of [n] records, [n <= 2^63], is [log2_up n]:
    the ceiling of [log2 n] for [n >= 1], and [0] for an empty batch. *)
Lemma level_of_log2_up (n : Z) : 0 <= n <= 2 ^ 63 -> Z.of_nat (level_of n) = Z.log2_up n.
Proof.
  intros Hn; unfold level_of, next_power_of_two.
  destruct (Z.leb_spec n 1) as [Hle|Hgt].
  - replace (trailing_zeros 1) with 0 by reflexivity.
    rewrite Z.log2_up_eqn0 by lia; reflexivity.
  - assert (Hl : Z.log2 (n - 1) < 63).
    { apply Z.log2_lt_pow2; lia. }
    assert (Hl0 : 0 <= Z.log2 (n - 1)) by apply Z.log2_nonneg.
    unfold usize_wrap; rewrite Z.mod_small.
    2:{ split; [apply Z.pow_nonneg; lia | apply Z.pow_lt_mono_r; lia]. }
    rewrite trailing_zeros_pow2 by lia.
    rewrite Z.log2_up_eqn by lia.
    rewrite Z2Nat.id by lia; rewrite <- Z.sub_1_r; lia.
Qed.

(** C7 (counterexample): [batch_b] (one record, level 0) is admitted while
    level 0 holds [Single(batch_a)]; fuel and roll-up leave that layer as it
    is, and the batch goes into the occupied slot, where a merge with
    [batch_a] begins. The slot was not vacant. *)
Lemma admitted_batch_placed_on_single :
  level_of (Z.of_nat (len batch_b)) = 0%nat /\
  (apply_fuel [0] (introduce_fuel 1 0);; roll_up [0] 0) [Single (Some batch_a)]
    = Ok (tt, [Single (Some batch_a)]) /\
  introduce_batch [0] 1 (Some batch_b) 0 [Single (Some batch_a)] = Ok (tt, [merge_ab]) /\
  spine_ab = Ok (mkSpine [0] [2] [merge_ab] [] [2] 1).
Proof. repeat split; vm_compute; reflexivity. Qed.

(** C7: a user batch [b] admitted from [pending] is introduced at level
    [idx = trailing_zeros(next_power_of_two(b.len()))], which is
    [log2_up(b.len())] (the ceiling of [log2(b.len())], and [0] for an empty
    batch) whenever [b.len() <= 2^63]. When [introduce_batch] succeeds, the
    layers [ms1] that [apply_fuel] and [roll_up(idx)] leave are all vacant
    below [idx], and the layer [idx] of [ms1] is either vacant, and then
    holds [b] alone, or holds a single batch, with which a merge of [b]
    begins: [roll_up] does not clear the layer [idx] itself. *)
Theorem admitted_batch_level_and_slot {K V T : Type} {EqK : EqB K} {EqV : EqB V}
    {EqT : EqB T} {DefT : Default T} {LatT : Lattice T} (af : list T) (eff : Z) (b : Batch K V T)
    (ms ms' : list (MergeState K V T)) (u : unit)
    (Hlen : Z.of_nat (len b) <= 2 ^ 63)
    (Hrun : introduce_batch af eff (Some b) (level_of (Z.of_nat (len b))) ms = Ok (u, ms')) :
  Z.of_nat (level_of (Z.of_nat (len b))) = Z.log2_up (Z.of_nat (len b)) /\
  exists ms1 ms2,
    (apply_fuel af (introduce_fuel eff (level_of (Z.of_nat (len b))));;
     roll_up af (level_of (Z.of_nat (len b)))) ms = Ok (tt, ms1) /\
    (forall j, (j < level_of (Z.of_nat (len b)))%nat -> slot ms1 j = Vacant) /\
    insert_at af (Some b) (level_of (Z.of_nat (len b))) ms1 = Ok (tt, ms2) /\
    tidy_layers af ms2 = Ok (u, ms') /\
    ((slot ms1 (level_of (Z.of_nat (len b))) = Vacant /\
      slot ms2 (level_of (Z.of_nat (len b))) = Single (Some b)) \/
     (exists o m, slot ms1 (level_of (Z.of_nat (len b))) = Single o /\
        begin_merge o (Some b) (Some af) = Ok m /\
        slot ms2 (level_of (Z.of_nat (len b))) = m)).
Proof.
  split; [apply level_of_log2_up; lia|].
  unfold introduce_batch in Hrun.
  destruct (bind_ok _ _ _ _ _ Hrun) as ([] & ms0 & H1 & H2).
  destruct (bind_ok _ _ _ _ _ H2) as ([] & ms1 & H3 & H4).
  destruct (bind_ok _ _ _ _ _ H4) as ([] & ms2 & H5 & H6).
  exists ms1, ms2; split; [unfold bind at 1; rewrite H1; exact H3|].
  split; [exact (roll_up_ok _ _ _ _ _ H3)|].
  split; [exact H5|]; split; [exact H6|].
  exact (insert_at_slot _ _ _ _ _ _ H5).
Qed.

(** Witness: [batch_b] introduced onto [Single(batch_a)]. *)
Lemma admitted_batch_level_and_slot_witness :
  Z.of_nat (level_of (Z.of_nat (len batch_b))) = Z.log2_up (Z.of_nat (len batch_b)) /\
  exists ms1 ms2,
    (apply_fuel [0] (introduce_fuel 1 (level_of (Z.of_nat (len batch_b))));;
     roll_up [0] (level_of (Z.of_nat (len batch_b)))) [Single (Some batch_a)] = Ok (tt, ms1) /\
    (forall j, (j < level_of (Z.of_nat (len batch_b)))%nat -> slot ms1 j = Vacant) /\
    insert_at [0] (Some batch_b) (level_of (Z.of_nat (len batch_b))) ms1 = Ok (tt, ms2) /\
    tidy_layers [0] ms2 = Ok (tt, [merge_ab]) /\
    ((slot ms1 (level_of (Z.of_nat (len batch_b))) = Vacant /\
      slot ms2 (level_of (Z.of_nat (len batch_b))) = Single (Some batch_b)) \/
     (exists o m, slot ms1 (level_of (Z.of_nat (len batch_b))) = Single o /\
        begin_merge o (Some batch_b) (Some [0]) = Ok m /\
        slot ms2 (level_of (Z.of_nat (len batch_b))) = m)).
Proof.
  apply (admitted_batch_level_and_slot [0] 1 batch_b [Single (Some batch_a)] [merge_ab] tt).
  - vm_compute; discriminate.
  - vm_compute; reflexivity.
Defined.

(* ------------------------------------------------------------------ *)
(** ** Sums over lists *)

Lemma zsum_app {A : Type} (f : A -> Z) l1 l2 : zsum f (l1 ++ l2) = zsum f l1 + zsum f l2.
Proof. induction l1 as [|x l1 IH]; cbn; [reflexivity | rewrite IH; ring]. Qed.

Lemma zsum_ext {A : Type} (f g : A -> Z) l : (forall x, f x = g x) -> zsum f l = zsum g l.
Proof. intros E; induction l as [|x l IH]; cbn; [reflexivity | rewrite E, IH; reflexivity]. Qed.

Lemma zsum_ext_in {A : Type} (f g : A -> Z) l : (forall x, In x l -> f x = g x) -> zsum f l = zsum g l.
Proof.
  induction l as [|x l IH]; intros E; cbn; [reflexivity|].
  rewrite E by (left; reflexivity); rewrite IH by (intros; apply E; right; assumption).
  reflexivity.
Qed.

Lemma zsum_zero {A : Type} (f : A -> Z) l : (forall x, In x l -> f x = 0) -> zsum f l = 0.
Proof.
  induction l as [|x l IH]; intros E; cbn; [reflexivity|].
  rewrite E by (left; reflexivity); rewrite IH by (intros; apply E; right; assumption).
  reflexivity.
Qed.

Lemma zsum_plus {A : Type} (f g : A -> Z) l : zsum f l + zsum g l = zsum (fun x => f x + g x) l.
Proof. induction l as [|x l IH]; cbn; [reflexivity | rewrite <- IH; ring]. Qed.

Lemma zsum_mult_l {A : Type} (c : Z) (f : A -> Z) l : c * zsum f l = zsum (fun x => c * f x) l.
Proof. induction l as [|x l IH]; cbn; [ring | rewrite <- IH; ring]. Qed.

Lemma zsum_mult_r {A : Type} (c : Z) (f : A -> Z) l : zsum f l * c = zsum (fun x => f x * c) l.
Proof. induction l as [|x l IH]; cbn; [ring | rewrite <- IH; ring]. Qed.

(** Over a list without duplicates, a function that vanishes away from
    [c] sums to its value at [c]. *)
Lemma zsum_nodup_single {A : Type} (f : A -> Z) l c :
  NoDup l -> In c l -> (forall x, x <> c -> f x = 0) -> zsum f l = f c.
Proof.
  intros Hnd; induction Hnd as [|x l Hx Hnd IH]; intros Hin E; [destruct Hin|].
  cbn; destruct Hin as [<-|Hin].
  - rewrite zsum_zero; [ring|].
    intros y Hy; apply E; intros ->; contradiction.
  - rewrite E by (intros ->; contradiction); rewrite IH by assumption; ring.
Qed.

Lemma zsum_not_in {A : Type} (f : A -> Z) l c :
  ~ In c l -> (forall x, x <> c -> f x = 0) -> zsum f l = 0.
Proof.
  intros Hn E; apply zsum_zero; intros x Hx; apply E; intros ->; contradiction.
Qed.

Lemma zsum_map {A B : Type} (f : B -> Z) (g : A -> B) l : zsum f (map g l) = zsum (fun x => f (g x)) l.
Proof. induction l as [|x l IH]; cbn; [reflexivity | rewrite IH; reflexivity]. Qed.

Lemma zsum_flat_map {A B : Type} (f : B -> Z) (g : A -> list B) l :
  zsum f (flat_map g l) = zsum (fun x => zsum f (g x)) l.
Proof. induction l as [|x l IH]; cbn; [reflexivity | rewrite zsum_app, IH; reflexivity]. Qed.

Lemma zsum_swap {A B : Type} (F : A -> B -> Z) (l1 : list A) (l2 : list B) :
  zsum (fun x => zsum (fun y => F x y) l2) l1 = zsum (fun y => zsum (fun x => F x y) l1) l2.
Proof.
  induction l1 as [|x l1 IH]; cbn.
  - induction l2 as [|y l2 IH2]; cbn; lia.
  - rewrite IH, zsum_plus; reflexivity.
Qed.

(** [x * (sum f) * (sum g)] as a double sum. *)
Lemma zsum_prod3 {A} (x : Z) (f g : A -> Z) l :
  x * zsum f l * zsum g l = zsum (fun j => zsum (fun k => x * f j * g k) l) l.
Proof.
  rewrite (zsum_mult_l x f l), zsum_mult_r; apply zsum_ext; intros j.
  rewrite zsum_mult_l; reflexivity.
Qed.

(* ------------------------------------------------------------------ *)
(** ** Lemmas on [propose_then] *)

Section ProposeLemmas.
  Context {P K V D : Type} (K_eq_dec : forall x y : K, {x = y} + {x <> y})
    (V_eq_dec : forall x y : V, {x = y} + {x <> y}).

  (** A value with a non-zero count is one the cursor visits. *)
Lemma trace_count_nonzero_in tr k v t :
    trace_count K_eq_dec V_eq_dec tr k v t <> 0 -> In v (trace_values K_eq_dec V_eq_dec tr k).
  Proof.
    unfold trace_values; intros Hc; apply nodup_In.
    induction tr as [|[[[k' v'] t'] d] tr IH]; cbn in Hc |- *; [congruence|].
    destruct (K_eq_dec k' k) as [->|Hk]; cbn.
    - destruct (V_eq_dec v' v) as [->|Hv]; [left; reflexivity|].
      right; apply IH; unfold trace_count; lia.
    - apply IH; unfold trace_count; lia.
  Qed.

  (** Summing over the visited values a function that vanishes away from
      [c] picks the count of [c]. *)
Lemma trace_values_sum tr k t (h : V -> Z) c :
    (forall v, v <> c -> h v = 0) ->
    zsum (fun v => h v * trace_count K_eq_dec V_eq_dec tr k v t) (trace_values K_eq_dec V_eq_dec tr k)
    = h c * trace_count K_eq_dec V_eq_dec tr k c t.
  Proof.
    intros Hh.
    destruct (in_dec V_eq_dec c (trace_values K_eq_dec V_eq_dec tr k)) as [Hin|Hnin].
    - apply (zsum_nodup_single (fun v => h v * trace_count K_eq_dec V_eq_dec tr k v t)).
      + apply NoDup_nodup.
      + exact Hin.
      + intros v Hv; rewrite Hh by exact Hv; ring.
    - rewrite (zsum_not_in (fun v => h v * trace_count K_eq_dec V_eq_dec tr k v t) _ c Hnin) by (intros v Hv; rewrite Hh by exact Hv; ring).
      destruct (Z.eq_dec (trace_count K_eq_dec V_eq_dec tr k c t) 0) as [E|E].
      + rewrite E; ring.
      + exfalso; exact (Hnin (trace_count_nonzero_in tr k c t E)).
  Qed.

  (** A weighted sum over the output of [propose_then], in terms of its
      extensions. *)
Lemma propose_then_weighted (g : D -> AltNeu -> Z) (ext : list (P * AltNeu * Z))
      (arr : list (K * V * AltNeu * Z)) (ks : P -> K) (logic : P -> V -> D) :
    zsum (fun '(d, t, r) => g d t * r) (propose_then K_eq_dec V_eq_dec ext arr ks logic)
    = zsum (fun '(p, t, r) =>
        zsum (fun v => g (logic p v) t * trace_count K_eq_dec V_eq_dec arr (ks p) v t)
          (trace_values K_eq_dec V_eq_dec arr (ks p)) * r) ext.
  Proof.
    unfold propose_then; rewrite zsum_flat_map; apply zsum_ext; intros [[p t] r].
    rewrite zsum_flat_map, zsum_mult_r; apply zsum_ext; intros v.
    destruct (Z.eqb_spec (trace_count K_eq_dec V_eq_dec arr (ks p) v t) 0) as [E|E];
      cbn; [rewrite E; ring | ring].
  Qed.
End ProposeLemmas.

Lemma unit_list_nodup (l : list unit) : NoDup l -> l = [] \/ l = [tt].
Proof.
  intros Hnd; destruct l as [|[] [|[] l]]; auto.
  inversion Hnd as [|x l' Hx _]; exfalso; apply Hx; left; reflexivity.
Qed.

(** [validate] and the reading of the spec agree on every input. *)
Lemma validate_unfold {P K V} (K_eq_dec : forall x y : K, {x = y} + {x <> y})
    (V_eq_dec : forall x y : V, {x = y} + {x <> y})
    (extensions : list ((P * V) * AltNeu * Z))
    (arrangement : list ((K * V) * unit * AltNeu * Z)) (key_selector : P -> K) :
  validate K_eq_dec V_eq_dec extensions arrangement key_selector
  = validate_spec K_eq_dec V_eq_dec extensions arrangement key_selector.
Proof.
  unfold validate, validate_spec, propose_then.
  induction extensions as [|[[[pre val] t] r] ext IH]; [reflexivity|].
  cbn [flat_map]; rewrite IH; f_equal.
  set (tr := trace_values (prod_eq_dec K_eq_dec V_eq_dec) unit_eq_dec arrangement (key_selector pre, val)).
  destruct (unit_list_nodup tr (NoDup_nodup _ _)) as [Hv|Hv]; rewrite Hv; cbn [flat_map].
  - destruct (Z.eqb_spec (trace_count (prod_eq_dec K_eq_dec V_eq_dec) unit_eq_dec arrangement
                            (key_selector pre, val) tt t) 0) as [E|E]; [reflexivity|].
    exfalso; apply trace_count_nonzero_in in E; fold tr in E; rewrite Hv in E; exact E.
  - rewrite app_nil_r; reflexivity.
Qed.

(** A weighted sum over the output of [validate]. *)
Lemma validate_weighted {P K V} (K_eq_dec : forall x y : K, {x = y} + {x <> y})
    (V_eq_dec : forall x y : V, {x = y} + {x <> y}) (g : (P * V) -> AltNeu -> Z)
    (ext : list ((P * V) * AltNeu * Z))
    (arr : list ((K * V) * unit * AltNeu * Z)) (ks : P -> K) :
  zsum (fun '(d, t, r) => g d t * r) (validate K_eq_dec V_eq_dec ext arr ks)
  = zsum (fun '(d, t, r) =>
      g d t * trace_count (prod_eq_dec K_eq_dec V_eq_dec) unit_eq_dec arr (ks (fst d), snd d) tt t * r)
      ext.
Proof.
  rewrite validate_unfold; unfold validate_spec; rewrite zsum_flat_map.
  apply zsum_ext; intros [[[pre val] t] r]; cbn.
  destruct (Z.eqb_spec (trace_count (prod_eq_dec K_eq_dec V_eq_dec) unit_eq_dec arr
                          (ks pre, val) tt t) 0) as [E|E]; cbn; [rewrite E|]; ring.
Qed.

(* ------------------------------------------------------------------ *)
(** ** Lemmas on the delta query *)

Lemma altneu_alt_alt s t : altneu_less_equal (AltNeu_alt s) (AltNeu_alt t) = (s <=? t).
Proof.
  unfold altneu_less_equal; cbn.
  destruct (Z.eqb_spec s t) as [->|Hne]; [symmetry; apply Z.leb_refl|].
  destruct (Z.ltb_spec s t), (Z.leb_spec s t); lia.
Qed.

Lemma altneu_neu_alt s t : altneu_less_equal (AltNeu_neu s) (AltNeu_alt t) = (s <? t).
Proof.
  unfold altneu_less_equal; cbn.
  destruct (Z.eqb_spec s t) as [->|Hne]; [symmetry; apply Z.ltb_irrefl|reflexivity].
Qed.

Lemma accumulate_edges (E : list (Edge * Z * Z)) e tau :
  accumulate edge_eq_dec E e tau = zsum (fun u => edge_weight e u * ind (utime u <=? tau)) E.
Proof.
  unfold accumulate; apply zsum_ext; intros [[e' t] r]; unfold edge_weight, utime, ind; cbn [fst snd].
  destruct (edge_eq_dec e' e); [destruct (t <=? tau)|]; ring.
Qed.

Lemma accumulate_leave (c : list ((Z * Z * Z) * AltNeu * Z)) x tau :
  accumulate triple_eq_dec (leave c) x tau = zsum (fun '(d, t, r) => at_tuple x tau d t * r) c.
Proof.
  unfold accumulate, leave; rewrite zsum_map; apply zsum_ext; intros [[d t] r].
  unfold at_tuple, ind; cbn [fst snd].
  destruct (triple_eq_dec d x); [destruct (time t <=? tau)|]; ring.
Qed.

(** Counts in the four arrangements of [delta_query.rs], entered with a
    time lift [f] and read at [t]. *)
Section Counts.
  Variables (E : list (Edge * Z * Z)) (f : Z -> AltNeu) (t : AltNeu) (pred : Z -> bool).
  Hypothesis Hf : forall s, altneu_less_equal (f s) t = pred s.

Lemma count_forward_key x y :
    trace_count Z.eq_dec Z.eq_dec (enter_at (arrange_by_key E) f) x y t
    = zsum (fun u => edge_weight (x, y) u * ind (pred (utime u))) E.
  Proof.
    unfold trace_count, enter_at, arrange_by_key; rewrite !zsum_map.
    apply zsum_ext; intros [[[x' y'] t'] r]; unfold edge_weight, utime, ind; cbn [fst snd].
    rewrite Hf.
    destruct (Z.eq_dec x' x), (Z.eq_dec y' y), (edge_eq_dec (x', y') (x, y));
      subst; try congruence; destruct (pred t'); ring.
  Qed.

Lemma count_reverse_key x y :
    trace_count Z.eq_dec Z.eq_dec (enter_at (arrange_by_key (reverse E)) f) x y t
    = zsum (fun u => edge_weight (y, x) u * ind (pred (utime u))) E.
  Proof.
    unfold trace_count, enter_at, arrange_by_key, reverse; rewrite !zsum_map.
    apply zsum_ext; intros [[[x' y'] t'] r]; unfold edge_weight, utime, ind; cbn [fst snd].
    rewrite Hf.
    destruct (Z.eq_dec y' x), (Z.eq_dec x' y), (edge_eq_dec (x', y') (y, x));
      subst; try congruence; destruct (pred t'); ring.
  Qed.

Lemma count_forward_self x y :
    trace_count (prod_eq_dec Z.eq_dec Z.eq_dec) unit_eq_dec (enter_at (arrange_by_self E) f) (x, y) tt t
    = zsum (fun u => edge_weight (x, y) u * ind (pred (utime u))) E.
  Proof.
    unfold trace_count, enter_at, arrange_by_self; rewrite !zsum_map.
    apply zsum_ext; intros [[[x' y'] t'] r]; unfold edge_weight, utime, ind; cbn [fst snd].
    rewrite Hf; change (prod_eq_dec Z.eq_dec Z.eq_dec) with edge_eq_dec.
    destruct (edge_eq_dec (x', y') (x, y)); [|ring].
    destruct (unit_eq_dec tt tt) as [_|Hn]; [|congruence].
    destruct (pred t'); ring.
  Qed.

Lemma count_reverse_self x y :
    trace_count (prod_eq_dec Z.eq_dec Z.eq_dec) unit_eq_dec (enter_at (arrange_by_self (reverse E)) f) (x, y) tt t
    = zsum (fun u => edge_weight (y, x) u * ind (pred (utime u))) E.
  Proof.
    unfold trace_count, enter_at, arrange_by_self, reverse; rewrite !zsum_map.
    apply zsum_ext; intros [[[x' y'] t'] r]; unfold edge_weight, utime, ind; cbn [fst snd].
    rewrite Hf; change (prod_eq_dec Z.eq_dec Z.eq_dec) with edge_eq_dec.
    destruct (edge_eq_dec (y', x') (x, y)), (edge_eq_dec (x', y') (y, x));
      try congruence; [|ring].
    destruct (unit_eq_dec tt tt) as [_|Hn]; [|congruence].
    destruct (pred t'); ring.
  Qed.
End Counts.

(** [validate] after [propose], as a weighted sum over the driving
    changes. *)
Lemma pipeline_weighted (G : (Edge * Z) -> AltNeu -> Z) (ext : list (Edge * AltNeu * Z))
    (fk : list (Z * Z * AltNeu * Z)) (fs : list ((Z * Z) * unit * AltNeu * Z))
    (ks1 ks2 : Edge -> Z) :
  zsum (fun '(d, t, r) => G d t * r)
    (validate Z.eq_dec Z.eq_dec (propose Z.eq_dec Z.eq_dec ext fk ks1) fs ks2)
  = zsum (fun '(p, t, r) =>
      zsum (fun v => (G (p, v) t * trace_count (prod_eq_dec Z.eq_dec Z.eq_dec) unit_eq_dec fs (ks2 p, v) tt t)
                     * trace_count Z.eq_dec Z.eq_dec fk (ks1 p) v t)
        (trace_values Z.eq_dec Z.eq_dec fk (ks1 p)) * r) ext.
Proof.
  rewrite validate_weighted; unfold propose.
  exact (propose_then_weighted Z.eq_dec Z.eq_dec
           (fun d t => G d t * trace_count (prod_eq_dec Z.eq_dec Z.eq_dec) unit_eq_dec fs (ks2 (fst d), snd d) tt t)
           ext fk ks1 (fun p v => (p, v))).
Qed.

Lemma edge_weight_same e t r : edge_weight e (e, t, r) = r.
Proof. unfold edge_weight; cbn [fst snd]; destruct (edge_eq_dec e e); congruence. Qed.

Lemma edge_weight_other e e' t r : e' <> e -> edge_weight e (e', t, r) = 0.
Proof. unfold edge_weight; cbn [fst snd]; destruct (edge_eq_dec e' e); congruence. Qed.

(** [dQ/dE1]: each change to [(a,b)] meets [E(b,c)] and [E(a,c)] strictly
    before its time. *)
Lemma changes1_weighted E a b c tau :
  zsum (fun '(d, t, r) => at_tuple (a, b, c) tau d t * r) (changes1 E)
  = zsum (fun i => edge_weight (a, b) i * ind (utime i <=? tau)
                   * zsum (fun j => edge_weight (b, c) j * ind (utime j <? utime i)) E
                   * zsum (fun k => edge_weight (a, c) k * ind (utime k <? utime i)) E) E.
Proof.
  unfold changes1; rewrite zsum_map.
  rewrite (zsum_ext _ (fun '(d, t, r) => at_tuple (a, b, c) tau (fst (fst d), snd (fst d), snd d) t * r))
    by (intros [[[[a' b'] c'] t] r]; reflexivity).
  rewrite pipeline_weighted; unfold enter; rewrite zsum_map.
  apply zsum_ext; intros [[[a' b'] t0] r]; unfold key1, key2, utime; cbn [fst snd].
  rewrite (trace_values_sum Z.eq_dec Z.eq_dec _ _ _
             (fun v => at_tuple (a, b, c) tau (a', b', v) (AltNeu_alt t0)
                       * trace_count (prod_eq_dec Z.eq_dec Z.eq_dec) unit_eq_dec
                           (enter_at (arrange_by_self E) AltNeu_neu) (a', v) tt (AltNeu_alt t0)) c).
  2:{ intros v Hv; unfold at_tuple; destruct (triple_eq_dec (a', b', v) (a, b, c)) as [Q|_];
      [congruence | ring]. }
  unfold at_tuple; cbn [time].
  destruct (triple_eq_dec (a', b', c) (a, b, c)) as [Q|Q].
  - injection Q as -> ->.
    rewrite edge_weight_same.
    rewrite (count_forward_self E AltNeu_neu (AltNeu_alt t0) (fun s => s <? t0))
      by (intros; apply altneu_neu_alt).
    rewrite (count_forward_key E AltNeu_neu (AltNeu_alt t0) (fun s => s <? t0))
      by (intros; apply altneu_neu_alt).
    unfold utime; cbn [fst snd time AltNeu_alt]; ring.
  - rewrite edge_weight_other by congruence; ring.
Qed.

(** [dQ/dE2]: each change to [(b,c)] meets [E(a,b)] up to its time and
    [E(a,c)] strictly before it. *)
Lemma changes2_weighted E a b c tau :
  zsum (fun '(d, t, r) => at_tuple (a, b, c) tau d t * r) (changes2 E)
  = zsum (fun j => edge_weight (b, c) j * ind (utime j <=? tau)
                   * zsum (fun i => edge_weight (a, b) i * ind (utime i <=? utime j)) E
                   * zsum (fun k => edge_weight (a, c) k * ind (utime k <? utime j)) E) E.
Proof.
  unfold changes2; rewrite zsum_map.
  rewrite (zsum_ext _ (fun '(d, t, r) => at_tuple (a, b, c) tau (snd d, fst (fst d), snd (fst d)) t * r))
    by (intros [[[[b' c'] a'] t] r]; reflexivity).
  rewrite pipeline_weighted; unfold enter; rewrite zsum_map.
  apply zsum_ext; intros [[[b' c'] t0] r]; unfold key1, key2; cbn [fst snd].
  rewrite (trace_values_sum Z.eq_dec Z.eq_dec _ _ _
             (fun v => at_tuple (a, b, c) tau (v, b', c') (AltNeu_alt t0)
                       * trace_count (prod_eq_dec Z.eq_dec Z.eq_dec) unit_eq_dec
                           (enter_at (arrange_by_self (reverse E)) AltNeu_neu) (c', v) tt (AltNeu_alt t0)) a).
  2:{ intros v Hv; unfold at_tuple; destruct (triple_eq_dec (v, b', c') (a, b, c)) as [Q|_];
      [congruence | ring]. }
  unfold at_tuple; cbn [time].
  destruct (triple_eq_dec (a, b', c') (a, b, c)) as [Q|Q].
  - injection Q as -> ->.
    rewrite edge_weight_same.
    rewrite (count_reverse_self E AltNeu_neu (AltNeu_alt t0) (fun s => s <? t0))
      by (intros; apply altneu_neu_alt).
    rewrite (count_reverse_key E AltNeu_alt (AltNeu_alt t0) (fun s => s <=? t0))
      by (intros; apply altneu_alt_alt).
    unfold utime; cbn [fst snd time AltNeu_alt]; ring.
  - rewrite edge_weight_other by congruence; ring.
Qed.

(** [dQ/dE3]: each change to [(a,c)] meets [E(a,b)] and [E(b,c)] up to its
    time. *)
Lemma changes3_weighted E a b c tau :
  zsum (fun '(d, t, r) => at_tuple (a, b, c) tau d t * r) (changes3 E)
  = zsum (fun k => edge_weight (a, c) k * ind (utime k <=? tau)
                   * zsum (fun i => edge_weight (a, b) i * ind (utime i <=? utime k)) E
                   * zsum (fun j => edge_weight (b, c) j * ind (utime j <=? utime k)) E) E.
Proof.
  unfold changes3; rewrite zsum_map.
  rewrite (zsum_ext _ (fun '(d, t, r) => at_tuple (a, b, c) tau (fst (fst d), snd d, snd (fst d)) t * r))
    by (intros [[[[a' c'] b'] t] r]; reflexivity).
  rewrite pipeline_weighted; unfold enter; rewrite zsum_map.
  apply zsum_ext; intros [[[a' c'] t0] r]; unfold key1, key2; cbn [fst snd].
  rewrite (trace_values_sum Z.eq_dec Z.eq_dec _ _ _
             (fun v => at_tuple (a, b, c) tau (a', v, c') (AltNeu_alt t0)
                       * trace_count (prod_eq_dec Z.eq_dec Z.eq_dec) unit_eq_dec
                           (enter_at (arrange_by_self (reverse E)) AltNeu_alt) (c', v) tt (AltNeu_alt t0)) b).
  2:{ intros v Hv; unfold at_tuple; destruct (triple_eq_dec (a', v, c') (a, b, c)) as [Q|_];
      [congruence | ring]. }
  unfold at_tuple; cbn [time].
  destruct (triple_eq_dec (a', b, c') (a, b, c)) as [Q|Q].
  - injection Q as -> ->.
    rewrite edge_weight_same.
    rewrite (count_reverse_self E AltNeu_alt (AltNeu_alt t0) (fun s => s <=? t0))
      by (intros; apply altneu_alt_alt).
    rewrite (count_forward_key E AltNeu_alt (AltNeu_alt t0) (fun s => s <=? t0))
      by (intros; apply altneu_alt_alt).
    unfold utime; cbn [fst snd time AltNeu_alt]; ring.
  - rewrite edge_weight_other by congruence; ring.
Qed.

(** For three updates [i, j, k], exactly one of "i strictly latest",
    "j latest and strictly after k", "k latest" holds. *)
Lemma split_pointwise (ti tj tk tau ai bj ck : Z) :
  ai * ind (ti <=? tau) * (bj * ind (tj <? ti)) * (ck * ind (tk <? ti))
  + bj * ind (tj <=? tau) * (ai * ind (ti <=? tj)) * (ck * ind (tk <? tj))
  + ck * ind (tk <=? tau) * (ai * ind (ti <=? tk)) * (bj * ind (tj <=? tk))
  = ai * ind (ti <=? tau) * (bj * ind (tj <=? tau)) * (ck * ind (tk <=? tau)).
Proof.
  unfold ind.
  destruct (Z.ltb_spec tj ti), (Z.ltb_spec tk ti), (Z.leb_spec ti tj), (Z.ltb_spec tk tj),
    (Z.leb_spec ti tk), (Z.leb_spec tj tk), (Z.leb_spec ti tau), (Z.leb_spec tj tau),
    (Z.leb_spec tk tau); try (exfalso; lia); ring.
Qed.

(** The three delta sums add up to the product of the three sums. *)
Lemma delta_split {X} (L : list X) (tm fa fb fc : X -> Z) (tau : Z) :
  zsum (fun i => fa i * ind (tm i <=? tau) * zsum (fun j => fb j * ind (tm j <? tm i)) L
                 * zsum (fun k => fc k * ind (tm k <? tm i)) L) L
  + zsum (fun j => fb j * ind (tm j <=? tau) * zsum (fun i => fa i * ind (tm i <=? tm j)) L
                   * zsum (fun k => fc k * ind (tm k <? tm j)) L) L
  + zsum (fun k => fc k * ind (tm k <=? tau) * zsum (fun i => fa i * ind (tm i <=? tm k)) L
                   * zsum (fun j => fb j * ind (tm j <=? tm k)) L) L
  = zsum (fun i => fa i * ind (tm i <=? tau)) L * zsum (fun j => fb j * ind (tm j <=? tau)) L
    * zsum (fun k => fc k * ind (tm k <=? tau)) L.
Proof.
  assert (H1 : zsum (fun i => fa i * ind (tm i <=? tau) * zsum (fun j => fb j * ind (tm j <? tm i)) L
                              * zsum (fun k => fc k * ind (tm k <? tm i)) L) L
             = zsum (fun i => zsum (fun j => zsum (fun k =>
                 fa i * ind (tm i <=? tau) * (fb j * ind (tm j <? tm i)) * (fc k * ind (tm k <? tm i))) L) L) L).
  { apply zsum_ext; intros i; apply zsum_prod3. }
  assert (H2 : zsum (fun j => fb j * ind (tm j <=? tau) * zsum (fun i => fa i * ind (tm i <=? tm j)) L
                              * zsum (fun k => fc k * ind (tm k <? tm j)) L) L
             = zsum (fun i => zsum (fun j => zsum (fun k =>
                 fb j * ind (tm j <=? tau) * (fa i * ind (tm i <=? tm j)) * (fc k * ind (tm k <? tm j))) L) L) L).
  { transitivity (zsum (fun j => zsum (fun i => zsum (fun k =>
                 fb j * ind (tm j <=? tau) * (fa i * ind (tm i <=? tm j)) * (fc k * ind (tm k <? tm j))) L) L) L).
    - apply zsum_ext; intros j; apply zsum_prod3.
    - apply zsum_swap. }
  assert (H3 : zsum (fun k => fc k * ind (tm k <=? tau) * zsum (fun i => fa i * ind (tm i <=? tm k)) L
                              * zsum (fun j => fb j * ind (tm j <=? tm k)) L) L
             = zsum (fun i => zsum (fun j => zsum (fun k =>
                 fc k * ind (tm k <=? tau) * (fa i * ind (tm i <=? tm k)) * (fb j * ind (tm j <=? tm k))) L) L) L).
  { transitivity (zsum (fun k => zsum (fun i => zsum (fun j =>
                 fc k * ind (tm k <=? tau) * (fa i * ind (tm i <=? tm k)) * (fb j * ind (tm j <=? tm k))) L) L) L).
    - apply zsum_ext; intros k; apply zsum_prod3.
    - transitivity (zsum (fun i => zsum (fun k => zsum (fun j =>
                 fc k * ind (tm k <=? tau) * (fa i * ind (tm i <=? tm k)) * (fb j * ind (tm j <=? tm k))) L) L) L).
      + apply zsum_swap.
      + apply zsum_ext; intros i; apply zsum_swap. }
  assert (HR : zsum (fun i => fa i * ind (tm i <=? tau)) L * zsum (fun j => fb j * ind (tm j <=? tau)) L
               * zsum (fun k => fc k * ind (tm k <=? tau)) L
             = zsum (fun i => zsum (fun j => zsum (fun k =>
                 fa i * ind (tm i <=? tau) * (fb j * ind (tm j <=? tau)) * (fc k * ind (tm k <=? tau))) L) L) L).
  { rewrite zsum_mult_r, zsum_mult_r; apply zsum_ext; intros i; apply zsum_prod3. }
  rewrite H1, H2, H3, HR, !zsum_plus; apply zsum_ext; intros i.
  rewrite !zsum_plus; apply zsum_ext; intros j.
  rewrite !zsum_plus; apply zsum_ext; intros k.
  apply split_pointwise.
Qed.

(** C8 (counterexample): on one triangle of [E] the three delta streams
    together emit the single match [(1,2,3)] once, a total weight of 1, not
    6. With every edge added in both directions the same triangle has six
    ordered matches, and the total is 6. *)
Lemma triangles_total_not_six :
  total_weight (triangles triangle_edges) = 1 /\
  triangle_count triangle_edges 0 = 1 /\
  total_weight (triangles triangle_edges) <> 6 * triangle_count triangle_edges 0 /\
  total_weight (triangles (triangle_edges ++ reverse triangle_edges))
    = 6 * triangle_count (triangle_edges ++ reverse triangle_edges) 0.
Proof. repeat split; vm_compute; congruence. Qed.

(** C8: the sum [dQ/dE1 + dQ/dE2 + dQ/dE3] of [delta_query.rs], left to the
    outer scope, gives each tuple [(a,b,c)], at every outer time [tau],
    the accumulated weight [E(a,b) * E(b,c) * E(a,c)] of the edges at
    [tau]: every match of the query is counted exactly once. *)
Theorem triangles_weight_is_product (E : list (Edge * Z * Z)) (a b c tau : Z) :
  accumulate triple_eq_dec (triangles E) (a, b, c) tau
  = accumulate edge_eq_dec E (a, b) tau * accumulate edge_eq_dec E (b, c) tau
    * accumulate edge_eq_dec E (a, c) tau.
Proof.
  unfold triangles; rewrite accumulate_leave, !zsum_app.
  rewrite changes1_weighted, changes2_weighted, changes3_weighted, !accumulate_edges.
  rewrite Z.add_assoc.
  exact (delta_split E utime (edge_weight (a, b)) (edge_weight (b, c)) (edge_weight (a, c)) tau).
Qed.

(** C9: [validate] is [propose_then] keyed by [(key_fn(p), v)] with the
    post-mapping [((p, v), ()) |-> (p, v)], and it emits each extension
    [((p, v), t, r)] with weight [r * count], [count] the existence count of
    [(key_fn(p), v)] at the times [<= t], dropping it when [count] is zero. *)
Theorem validate_is_keyed_propose_then {P K V} (K_eq_dec : forall x y : K, {x = y} + {x <> y})
    (V_eq_dec : forall x y : V, {x = y} + {x <> y})
    (extensions : list ((P * V) * AltNeu * Z))
    (arrangement : list ((K * V) * unit * AltNeu * Z)) (key_fn : P -> K) :
  validate K_eq_dec V_eq_dec extensions arrangement key_fn
    = propose_then (prod_eq_dec K_eq_dec V_eq_dec) unit_eq_dec extensions arrangement
        (fun '(p, v) => (key_fn p, v)) (fun '(p, v) (_ : unit) => (p, v)) /\
  validate K_eq_dec V_eq_dec extensions arrangement key_fn
    = validate_spec K_eq_dec V_eq_dec extensions arrangement key_fn.
Proof. split; [reflexivity | apply validate_unfold]. Qed.

(* ------------------------------------------------------------------ *)
(** * Further properties of the code *)

(** ** [advance_by] on the lattice implementations *)

Lemma fold_left_ext_in {A B : Type} (g h : A -> B -> A) (l : list B) (a : A) :
  (forall acc x, In x l -> g acc x = h acc x) -> fold_left g l a = fold_left h l a.
Proof.
  revert a; induction l as [|x l IH]; intros a Hgh; cbn; [reflexivity|].
  rewrite Hgh by (left; reflexivity); apply IH; intros; apply Hgh; right; assumption.
Qed.

(** X1: on [usize] ([join] is [max], [meet] is [min]), [advance_by t F]
    for a non-empty frontier [F] is [max(t, min F)]. *)
Theorem advance_by_usize_max_min (t f0 : Z) (rest : list Z) :
  advance_by t (f0 :: rest) = Z.max t (fold_left Z.min rest f0).
Proof.
  cbn; generalize f0; induction rest as [|f rest IH]; intros a; cbn; [reflexivity|].
  rewrite <- IH; f_equal; lia.
Qed.

(** X2: on [Product<T1, T2>], [advance_by] works componentwise: the outer
    and inner coordinates are advanced by the outer and inner coordinates of
    the frontier (for the empty frontier both sides are [maximum]). *)
Theorem advance_by_product_componentwise {T1 T2} `{Lattice T1} `{Lattice T2}
    (a : T1) (b : T2) (F : list (Product T1 T2)) :
  advance_by (Build_Product a b) F =
    Build_Product (advance_by a (map outer F)) (advance_by b (map inner F)).
Proof.
  destruct F as [|f0 rest]; [reflexivity|]; cbn.
  generalize (join a (outer f0)) (join b (inner f0)).
  induction rest as [|f rest IH]; intros x y; cbn; [reflexivity|].
  apply IH.
Qed.

Section AdvanceByLaws.
  Context {T : Type} `{Lattice T} (HL : LatticeLaws T).

Lemma join_advance_by t f0 rest f :
    In f (f0 :: rest) -> join (advance_by t (f0 :: rest)) f = join t f.
  Proof.
    intros Hin; apply (le_antisym _ HL).
    - apply (join_lub _ HL); [apply (advance_by_below HL _ _ _ _ Hin) | apply (join_ub_r _ HL)].
    - apply (join_lub _ HL); [|apply (join_ub_r _ HL)].
      eapply (le_trans _ HL); [apply (advance_by_ge HL) | apply (join_ub_l _ HL)].
  Qed.
End AdvanceByLaws.

(** X3: for a lattice satisfying the laws, [advance_by] is idempotent:
    advancing an advanced time by the same frontier changes nothing. *)
Theorem advance_by_idempotent {T} `{Lattice T} (HL : LatticeLaws T) (t : T) (F : list T) :
  advance_by (advance_by t F) F = advance_by t F.
Proof.
  destruct F as [|f0 rest]; [reflexivity|].
  set (a := advance_by t (f0 :: rest)).
  assert (Hj : forall f, In f (f0 :: rest) -> join a f = join t f)
    by (intros f Hin; apply (join_advance_by HL); exact Hin).
  change (advance_by a (f0 :: rest)) with
    (fold_left (fun r f => meet r (join a f)) rest (join a f0)).
  rewrite (Hj f0) by (left; reflexivity).
  apply fold_left_ext_in; intros acc x Hin; rewrite Hj by (right; exact Hin); reflexivity.
Qed.

(** X4: for a lattice satisfying the laws, [advance_by] is monotone in the
    time: [t <= t'] implies [advance_by t F <= advance_by t' F]. *)
Theorem advance_by_monotone {T} `{Lattice T} (HL : LatticeLaws T) (t t' : T) (F : list T)
    (Htt : less_equal t t' = true) :
  less_equal (advance_by t F) (advance_by t' F) = true.
Proof.
  destruct F as [|f0 rest]; [apply (le_refl _ HL)|].
  apply (advance_by_greatest HL); intros f Hin.
  eapply (le_trans _ HL); [apply (advance_by_below HL _ _ _ _ Hin)|].
  apply (join_lub _ HL); [|apply (join_ub_r _ HL)].
  eapply (le_trans _ HL); [exact Htt | apply (join_ub_l _ HL)].
Qed.

(** X5: for a lattice satisfying the laws, a time already at or above some
    element of the frontier is left unchanged by [advance_by]. *)
Theorem advance_by_beyond_frontier {T} `{Lattice T} (HL : LatticeLaws T) (t f : T) (F : list T)
    (Hin : In f F) (Hft : less_equal f t = true) :
  advance_by t F = t.
Proof.
  destruct F as [|f0 rest]; [destruct Hin|].
  apply (le_antisym _ HL).
  - eapply (le_trans _ HL); [apply (advance_by_below HL _ _ _ _ Hin)|].
    apply (join_lub _ HL); [apply (le_refl _ HL) | exact Hft].
  - apply (advance_by_ge HL).
Qed.

(** ** Properties of the Spine's methods *)

Section SpineExtras.
  Context {K V T : Type} {EqK : EqB K} {EqV : EqB V} {EqT : EqB T} {DefT : Default T} {LatT : Lattice T}.

Lemma reduced_loop_iff (ms : list (MergeState K V T)) : forall n, (n <= 1)%nat ->
    reduced_loop ms n = true <->
    forallb (fun m => negb (is_double m)) ms = true /\
    (n + List.length (filter (fun m => Nat.ltb 0 (ms_len m)) ms) <= 1)%nat.
  Proof.
    induction ms as [|m r IH]; intros n Hn; cbn [reduced_loop forallb filter List.length].
    - split; [intros _; split; [reflexivity | lia] | reflexivity].
    - destruct (is_double m); cbn [negb andb].
      + split; [intros Hf; discriminate Hf | intros [Hf _]; discriminate Hf].
      + destruct (Nat.ltb 0 (ms_len m)); cbn [List.length].
        * destruct (Nat.ltb 1 (S n)) eqn:Hlt.
          -- apply Nat.ltb_lt in Hlt; split; [intros Hf; discriminate Hf | intros [_ Hc]; lia].
          -- apply Nat.ltb_ge in Hlt; rewrite (IH (S n) Hlt).
             split; intros [Ha Hb]; split; auto; lia.
        * destruct (Nat.ltb 1 n) eqn:Hlt.
          -- apply Nat.ltb_lt in Hlt; lia.
          -- apply IH; exact Hn.
  Qed.

Lemma consider_merges_loop_head (c : nat) (s s' : Spine K V T) :
    (List.length (pending s) <= c)%nat -> consider_merges_loop c s = Ok s' ->
    match pending s' with
    | [] => True
    | b :: _ => frontier_ge (through_frontier s) (upper b) = false
    end.
  Proof.
    revert s; induction c as [|c IH]; intros s Hlen Hs; cbn in Hs.
    - inversion Hs; subst; destruct (pending s'); [exact I | cbn in Hlen; lia].
    - destruct (pending s) as [|b rest] eqn:Hp.
      + inversion Hs; subst; rewrite Hp; exact I.
      + destruct (frontier_ge (through_frontier s) (upper b)) eqn:Hge.
        * destruct (run_ms _ (with_pending s rest)) as [s1|e] eqn:Hr; [|discriminate].
          apply run_ms_ok in Hr; destruct Hr as [ms ->].
          cbn in Hlen; refine (IH _ _ Hs); cbn; lia.
        * inversion Hs; subst; rewrite Hp; exact Hge.
  Qed.

Lemma list_eqb_nil_l (l : list T) : list_eqb [] l = true -> l = [].
  Proof. destruct l; [reflexivity | discriminate]. Qed.

Lemma list_eqb_nil_r (l : list T) : list_eqb l [] = true -> l = [].
  Proof. destruct l; [reflexivity | discriminate]. Qed.
End SpineExtras.

Section Contiguity.
  Context {K V T : Type} {EqK : EqB K} {EqV : EqB V} {EqT : EqB T} {DefT : Default T} {LatT : Lattice T}.
  Hypothesis Heqb : forall a b : T, eqb a b = true <-> a = b.

Lemma list_eqb_iff (l1 l2 : list T) : list_eqb l1 l2 = true <-> l1 = l2.
  Proof.
    revert l2; induction l1 as [|a l1 IH]; intros [|b l2]; cbn;
      try (split; [discriminate | congruence]); [split; reflexivity|].
    rewrite andb_true_iff, Heqb, IH; split; [intros [-> ->]; reflexivity | intros E; inversion E; auto].
  Qed.

Lemma contiguous_snoc (p : list (Batch K V T)) (u : list T) (b : Batch K V T) :
    contiguous p u = true -> lower b = u -> contiguous (p ++ [b]) (upper b) = true.
  Proof.
    intros Hp Hb; induction p as [|x p IH]; cbn.
    - apply list_eqb_iff; reflexivity.
    - destruct p as [|y p]; cbn in *.
      + apply andb_true_iff; split; [|apply list_eqb_iff; reflexivity].
        apply list_eqb_iff; apply list_eqb_iff in Hp; congruence.
      + apply andb_true_iff in Hp; destruct Hp as [Hxy Hp].
        apply andb_true_iff; split; [exact Hxy | apply IH; exact Hp].
  Qed.

Lemma contiguous_skipn (p : list (Batch K V T)) (u : list T) n :
    contiguous p u = true -> contiguous (skipn n p) u = true.
  Proof.
    revert p; induction n as [|n IH]; intros p Hp; [exact Hp|].
    destruct p as [|x p]; [reflexivity|]; cbn.
    apply IH; destruct p as [|y p]; [reflexivity|].
    apply andb_true_iff in Hp; apply Hp.
  Qed.
End Contiguity.

Section ExertFrame.
  Context {K V T : Type} {EqK : EqB K} {EqV : EqB V} {EqT : EqB T} {DefT : Default T} {LatT : Lattice T}.

Lemma exert_ok (s s' : Spine K V T) (eff : Z) :
    exert s eff = Ok s' -> exists ms, s' = with_merging s ms.
  Proof.
    unfold exert; destruct (run_ms _ s) as [s1|e] eqn:E; [|discriminate].
    apply run_ms_ok in E; destruct E as [ms1 ->].
    destruct (negb _); [destruct (existsb _ _)|].
    - intros Hr; apply run_ms_ok in Hr; destruct Hr as [ms2 ->]; exists ms2; reflexivity.
    - intros Hr; apply run_ms_ok in Hr; destruct Hr as [ms2 ->]; exists ms2; reflexivity.
    - intros Hr; inversion Hr; subst; exists ms1; reflexivity.
  Qed.
End ExertFrame.

(** X6: [reduced] holds exactly when no layer is merging ([Double]) and at
    most one layer holds records. *)
Theorem reduced_iff {K V T} (ms : list (MergeState K V T)) :
  reduced ms = true <->
  forallb (fun m => negb (is_double m)) ms = true /\
  (List.length (filter (fun m => Nat.ltb 0 (ms_len m)) ms) <= 1)%nat.
Proof.
  unfold reduced; rewrite (reduced_loop_iff ms 0 (Nat.le_0_l 1)); reflexivity.
Qed.

(** X7: after a successful [distinguish_since(F)], the through frontier is
    [F], the advance and upper frontiers are unchanged, and the batches that
    left the pending queue are a prefix of it whose upper frontiers are all at
    or below [F]; the batch now at the head of the queue, if any, is not. *)
Theorem distinguish_since_admits_maximal_prefix {K V T} {EqK : EqB K} {EqV : EqB V}
    {EqT : EqB T} {DefT : Default T} {LatT : Lattice T}
    (s s' : Spine K V T) (F : list T) (Hs : distinguish_since s F = Ok s') :
  through_frontier s' = F /\ advance_frontier s' = advance_frontier s /\
  spine_upper s' = spine_upper s /\
  exists n, pending s' = skipn n (pending s) /\
    (forall x, In x (firstn n (pending s)) -> frontier_ge F (upper x) = true) /\
    match pending s' with
    | [] => True
    | b :: _ => frontier_ge F (upper b) = false
    end.
Proof.
  unfold distinguish_since, consider_merges in Hs.
  pose proof (consider_merges_loop_head _ _ _ (le_n _) Hs) as Hh.
  apply consider_merges_loop_ok in Hs; cbn in *.
  destruct Hs as (Ht & Ha & Hu & n & Hp & Hall).
  repeat split; auto.
  exists n; repeat split; auto; rewrite Ht in Hh; exact Hh.
Qed.

Lemma distinguish_since_admits_maximal_prefix_witness :
  distinguish_since (mkSpine [0] [0] [] [batch_a; batch_b] [2] 1) [1] =
    Ok (mkSpine [0] [1] [Single (Some batch_a)] [batch_b] [2] 1) /\
  exists n, [batch_b] = skipn n [batch_a; batch_b] /\
    (forall x, In x (firstn n [batch_a; batch_b]) -> frontier_ge [1] (upper x) = true) /\
    frontier_ge [1] (upper batch_b) = false.
Proof.
  assert (E : distinguish_since (mkSpine [0] [0] [] [batch_a; batch_b] [2] 1) [1] =
    Ok (mkSpine [0] [1] [Single (Some batch_a)] [batch_b] [2] 1)) by (vm_compute; reflexivity).
  split; [exact E|].
  exact (proj2 (proj2 (proj2 (distinguish_since_admits_maximal_prefix _ _ _ E)))).
Defined.

(** X8: with an equality on times that decides [=], the pending queue stays
    contiguous up to the Spine's upper frontier (each batch's upper frontier
    is the next one's lower frontier, the last one's is [upper]) across
    [insert], [distinguish_since], [advance_by] and [exert]. *)
Theorem contiguous_pending_invariant {K V T} {EqK : EqB K} {EqV : EqB V}
    {EqT : EqB T} {DefT : Default T} {LatT : Lattice T}
    (Heqb : forall a b : T, eqb a b = true <-> a = b)
    (s : Spine K V T) (Hc : contiguous (pending s) (spine_upper s) = true) :
  (forall b s', insert s b = Ok s' -> contiguous (pending s') (spine_upper s') = true) /\
  (forall F s', distinguish_since s F = Ok s' -> contiguous (pending s') (spine_upper s') = true) /\
  (forall F, contiguous (pending (spine_advance_by s F)) (spine_upper (spine_advance_by s F)) = true) /\
  (forall eff s', exert s eff = Ok s' -> contiguous (pending s') (spine_upper s') = true).
Proof.
  split; [|split; [|split]].
  - intros b s' Hi; destruct (insert_ok _ _ _ Hi) as (Hl & Hu & _ & n & Hp & _).
    rewrite Hp, Hu; apply contiguous_skipn.
    apply (contiguous_snoc Heqb _ (spine_upper s)); [exact Hc|].
    apply (list_eqb_iff Heqb); exact Hl.
  - intros F s' Hd; unfold distinguish_since, consider_merges in Hd.
    apply consider_merges_loop_ok in Hd; cbn in Hd.
    destruct Hd as (_ & _ & Hu & n & Hp & _); rewrite Hp, Hu; apply contiguous_skipn; exact Hc.
  - intros [|f F]; [reflexivity | exact Hc].
  - intros eff s' He; destruct (exert_ok _ _ _ He) as [ms ->]; exact Hc.
Qed.

Lemma contiguous_pending_invariant_witness :
  insert spine0 batch_a = Ok (mkSpine [0] [0] [] [batch_a] [1] 1) /\
  contiguous (pending (mkSpine (K:=Z) (V:=Z) [0] [0] [] [batch_a] [1] 1)) [1] = true.
Proof.
  assert (E : insert spine0 batch_a = Ok (mkSpine [0] [0] [] [batch_a] [1] 1))
    by (vm_compute; reflexivity).
  split; [exact E|].
  exact (proj1 (contiguous_pending_invariant (fun a b => Z.eqb_eq a b) spine0
                  ltac:(reflexivity)) _ _ E).
Defined.

(** X9: once the Spine's upper frontier is empty (after [close]), [insert]
    succeeds only for a batch whose lower frontier is empty and whose upper
    frontier is not: every other batch makes it panic. *)
Theorem insert_after_seal {K V T} {EqK : EqB K} {EqV : EqB V} {EqT : EqB T}
    {DefT : Default T} {LatT : Lattice T} (s s' : Spine K V T) (b : Batch K V T)
    (Hs : spine_upper s = []) (Hi : insert s b = Ok s') :
  lower b = [] /\ upper b <> [].
Proof.
  unfold insert in Hi; rewrite Hs in Hi.
  destruct (list_eqb (lower b) (upper b)) eqn:E1; [discriminate|].
  destruct (list_eqb (lower b) []) eqn:E2; [|discriminate].
  apply list_eqb_nil_r in E2; split; [exact E2|].
  intros Hu; rewrite E2, Hu in E1; discriminate.
Qed.

Lemma insert_after_seal_witness :
  insert (mkSpine [0] [0] [] [] [] 1) (mkBatch (K:=Z) (V:=Z) [] [5] []) =
    Ok (mkSpine [0] [0] [] [mkBatch [] [5] []] [5] 1) /\
  lower (mkBatch (K:=Z) (V:=Z) (T:=Z) [] [5] []) = [] /\
  upper (mkBatch (K:=Z) (V:=Z) (T:=Z) [] [5] []) <> [].
Proof.
  assert (E : insert (mkSpine [0] [0] [] [] [] 1) (mkBatch (K:=Z) (V:=Z) [] [5] []) =
    Ok (mkSpine [0] [0] [] [mkBatch [] [5] []] [5] 1)) by (vm_compute; reflexivity).
  split; [exact E|].
  exact (insert_after_seal _ _ _ (eq_refl : spine_upper (mkSpine (K:=Z) (V:=Z) [0] [0] [] [] [] 1) = []) E).
Defined.

(** X10: [exert] only reorganises the layers: it never admits or drops a
    pending batch and changes none of the frontiers nor the effort. *)
Theorem exert_only_touches_layers {K V T} {EqK : EqB K} {EqV : EqB V} {EqT : EqB T}
    {DefT : Default T} {LatT : Lattice T} (s s' : Spine K V T) (eff : Z)
    (He : exert s eff = Ok s') :
  pending s' = pending s /\ spine_upper s' = spine_upper s /\
  advance_frontier s' = advance_frontier s /\ through_frontier s' = through_frontier s /\
  effort s' = effort s.
Proof.
  destruct (exert_ok _ _ _ He) as [ms ->]; repeat split.
Qed.

Lemma exert_only_touches_layers_witness :
  exert spine_reduced 1 = Ok spine_tidied /\
  pending spine_tidied = pending spine_reduced /\ spine_upper spine_tidied = spine_upper spine_reduced /\
  advance_frontier spine_tidied = advance_frontier spine_reduced /\
  through_frontier spine_tidied = through_frontier spine_reduced /\
  effort spine_tidied = effort spine_reduced.
Proof.
  assert (E : exert spine_reduced 1 = Ok spine_tidied) by (vm_compute; reflexivity).
  split; [exact E | exact (exert_only_touches_layers _ _ _ E)].
Defined.

Section LayerOutcomes.
  Context {K V T : Type} {EqK : EqB K} {EqV : EqB V} {EqT : EqB T} {DefT : Default T} {LatT : Lattice T}.

Lemma set_nth_nth (l : list (MergeState K V T)) i : set_nth l i (nth i l Vacant) = l.
  Proof.
    revert i; induction l as [|y l IH]; intros [|i]; cbn; [reflexivity | reflexivity | reflexivity |].
    rewrite IH; reflexivity.
  Qed.

Lemma set_nth_length (l : list (MergeState K V T)) i x : List.length (set_nth l i x) = List.length l.
  Proof.
    revert i; induction l as [|y l IH]; intros [|i]; cbn; auto.
  Qed.

Lemma set_nth_set_nth (l : list (MergeState K V T)) i x y : set_nth (set_nth l i x) i y = set_nth l i y.
  Proof.
    revert i; induction l as [|z l IH]; intros [|i]; cbn; auto; rewrite IH; reflexivity.
  Qed.

Lemma nth_error_slot (ms : list (MergeState K V T)) i :
    (i < List.length ms)%nat -> nth_error ms i = Some (slot ms i).
  Proof.
    intros Hi; unfold slot; apply nth_error_nth'; exact Hi.
  Qed.

Lemma slot_pad (ms : list (MergeState K V T)) i j :
    slot (ms ++ repeat Vacant (S i - List.length ms)) j = slot ms j.
  Proof.
    unfold slot; destruct (Nat.lt_ge_cases j (List.length ms)).
    - apply app_nth1; assumption.
    - rewrite app_nth2 by assumption; rewrite nth_repeat.
      symmetry; apply nth_overflow; assumption.
  Qed.

Lemma no_double_slot (ms : list (MergeState K V T)) i :
    forallb (fun m => negb (is_double m)) ms = true -> is_double (slot ms i) = false.
  Proof.
    intros Hf; unfold slot; destruct (Nat.lt_ge_cases i (List.length ms)) as [Hi|Hi].
    - apply forallb_forall with (x := nth i ms Vacant) in Hf; [|apply nth_In; exact Hi].
      destruct (nth i ms Vacant); [reflexivity | reflexivity | discriminate].
    - rewrite nth_overflow by exact Hi; reflexivity.
  Qed.

Lemma apply_fuel_loop_nomerge (af : list T) (fuel : Z) c : forall i (ms : list (MergeState K V T)),
    (i + c <= List.length ms)%nat -> forallb (fun m => negb (is_double m)) ms = true ->
    apply_fuel_loop af fuel i c ms = Ok (tt, ms).
  Proof.
    induction c as [|c IH]; intros i ms Hic Hf; [reflexivity|].
    cbn [apply_fuel_loop]; unfold bind at 1, index_get.
    rewrite (nth_error_slot ms i) by lia.
    pose proof (no_double_slot ms i Hf) as Hd.
    assert (Hw : state_work (slot ms i) fuel = (slot ms i, fuel))
      by (destruct (slot ms i); [reflexivity | reflexivity | discriminate]).
    rewrite Hw; unfold bind at 1, index_set.
    assert (Hlt : Nat.ltb i (List.length ms) = true) by (apply Nat.ltb_lt; lia).
    rewrite Hlt; unfold slot at 2; rewrite set_nth_nth.
    assert (Hc : is_complete (slot ms i) = false)
      by (destruct (slot ms i); [reflexivity | reflexivity | discriminate]).
    rewrite Hc; unfold bind, ret; apply IH; [lia | exact Hf].
  Qed.

  (** [ensure_len] followed by [take]: the layer's old state, now [Vacant]. *)
Lemma ensure_take (i : nat) (ms : list (MergeState K V T)) :
    (ensure_len i;; take i) ms =
    Ok (slot ms i, set_nth (ms ++ repeat Vacant (S i - List.length ms)) i Vacant).
  Proof.
    unfold bind at 1, ensure_len, take, bind, index_get, index_set, ret.
    set (ms1 := ms ++ repeat Vacant (S i - List.length ms)).
    assert (Hl : (i < List.length ms1)%nat)
      by (unfold ms1; rewrite length_app, repeat_length; lia).
    rewrite (nth_error_slot ms1 i Hl).
    apply Nat.ltb_lt in Hl; rewrite Hl; unfold ms1; rewrite slot_pad; reflexivity.
  Qed.

Lemma insert_at_eq (af : list T) (batch : option (Batch K V T)) (i : nat)
      (ms : list (MergeState K V T)) :
    insert_at af batch i ms =
    let ms1 := ms ++ repeat Vacant (S i - List.length ms) in
    match slot ms i with
    | Vacant => Ok (tt, set_nth ms1 i (Single batch))
    | Single o =>
        match begin_merge o batch (Some af) with
        | Ok m => Ok (tt, set_nth ms1 i m)
        | Panic e => Panic e
        end
    | Double _ => Panic "Attempted to insert batch into incomplete merge!"%string
    end.
  Proof.
    unfold insert_at.
    change ((ensure_len i;; st <- take i;;
             match st with
             | Vacant => index_set i (Single batch)
             | Single old => m <- lift (begin_merge old batch (Some af));; index_set i m
             | Double _ => panic "Attempted to insert batch into incomplete merge!"%string
             end) ms)
      with (bind (ensure_len i;; take i)
             (fun st => match st with
             | Vacant => index_set i (Single batch)
             | Single old => m <- lift (begin_merge old batch (Some af));; index_set i m
             | Double _ => panic "Attempted to insert batch into incomplete merge!"%string
             end) ms).
    unfold bind at 1; rewrite ensure_take; cbv zeta.
    set (ms1 := ms ++ repeat Vacant (S i - List.length ms)).
    assert (Hl : Nat.ltb i (List.length (set_nth ms1 i Vacant)) = true)
      by (apply Nat.ltb_lt; rewrite set_nth_length; unfold ms1;
          rewrite length_app, repeat_length; lia).
    destruct (slot ms i) as [|o|v]; unfold index_set, lift, bind, panic; rewrite ?Hl.
    - rewrite set_nth_set_nth; reflexivity.
    - destruct (begin_merge o batch (Some af)); [rewrite Hl, set_nth_set_nth|]; reflexivity.
    - reflexivity.
  Qed.
End LayerOutcomes.

(** X11: [apply_fuel] leaves the layers unchanged, and does not panic, when
    no layer is merging. *)
Theorem apply_fuel_without_merges {K V T} {EqK : EqB K} {EqV : EqB V} {EqT : EqB T}
    {DefT : Default T} {LatT : Lattice T} (af : list T) (fuel : Z) (ms : list (MergeState K V T))
    (Hnd : forallb (fun m => negb (is_double m)) ms = true) :
  apply_fuel af fuel ms = Ok (tt, ms).
Proof.
  unfold apply_fuel, bind, get_ms; apply apply_fuel_loop_nomerge; [lia | exact Hnd].
Qed.

Lemma apply_fuel_without_merges_witness :
  forallb (fun m => negb (is_double m)) [Vacant; Single (Some batch_a)] = true /\
  apply_fuel [0] 8 [Vacant; Single (Some batch_a)] = Ok (tt, [Vacant; Single (Some batch_a)]).
Proof.
  split; [reflexivity | apply apply_fuel_without_merges; reflexivity].
Defined.

(** X12: [insert_at(batch, index)] panics when layer [index] is merging, or
    when it holds a batch whose upper frontier differs from the new batch's
    lower frontier. Otherwise it grows the layers to at least [index + 1],
    leaves every other layer as it was, and puts the batch alone in a vacant
    layer, or begins its merge with the batch already there. *)
Theorem insert_at_outcome {K V T} {EqK : EqB K} {EqV : EqB V} {EqT : EqB T}
    {DefT : Default T} {LatT : Lattice T} (af : list T) (batch : option (Batch K V T))
    (i : nat) (ms : list (MergeState K V T)) :
  (is_double (slot ms i) = true -> exists e, insert_at af batch i ms = Panic e) /\
  (forall o e, slot ms i = Single o -> begin_merge o batch (Some af) = Panic e ->
     insert_at af batch i ms = Panic e) /\
  (forall u ms', insert_at af batch i ms = Ok (u, ms') ->
     List.length ms' = Nat.max (List.length ms) (S i) /\
     (forall j, j <> i -> slot ms' j = slot ms j) /\
     ((slot ms i = Vacant /\ slot ms' i = Single batch) \/
      (exists o m, slot ms i = Single o /\ begin_merge o batch (Some af) = Ok m /\
                   slot ms' i = m))).
Proof.
  rewrite insert_at_eq; cbv zeta.
  set (ms1 := ms ++ repeat Vacant (S i - List.length ms)).
  assert (Hl : (i < List.length ms1)%nat)
    by (unfold ms1; rewrite length_app, repeat_length; lia).
  assert (Hlen : forall x, List.length (set_nth ms1 i x) = Nat.max (List.length ms) (S i))
    by (intros x; rewrite set_nth_length; unfold ms1; rewrite length_app, repeat_length; lia).
  assert (Hother : forall x j, j <> i -> slot (set_nth ms1 i x) j = slot ms j)
    by (intros x j Hj; unfold slot; rewrite set_nth_same by exact Hj;
        apply (slot_pad ms i j)).
  assert (Hhere : forall x, slot (set_nth ms1 i x) i = x)
    by (intros x; unfold slot; apply set_nth_here; exact Hl).
  destruct (slot ms i) as [|o|v] eqn:Hs.
  - split; [discriminate|]; split; [discriminate|].
    intros u ms' E; inversion E; subst; repeat split; auto.
  - split; [discriminate|]; split.
    + intros o' e Ho He; inversion Ho; subst; rewrite He; reflexivity.
    + destruct (begin_merge o batch (Some af)) as [m|e] eqn:Hb; [|discriminate].
      intros u ms' E; inversion E; subst; repeat split; auto.
      right; exists o, m; auto.
  - split; [intros _; eexists; reflexivity|]; split; [discriminate | discriminate].
Qed.

Lemma insert_at_outcome_witness :
  insert_at [0] (Some batch_b) 0 [Single (Some batch_a)] = Ok (tt, [merge_ab]) /\
  List.length [merge_ab] = Nat.max (List.length [Single (Some batch_a)]) 1 /\
  ((slot [Single (Some batch_a)] 0 = Vacant /\ slot [merge_ab] 0 = Single (Some batch_b)) \/
   (exists o m, slot [Single (Some batch_a)] 0 = Single o /\
      begin_merge o (Some batch_b) (Some [0]) = Ok m /\ slot [merge_ab] 0 = m)).
Proof.
  assert (E : insert_at [0] (Some batch_b) 0 [Single (Some batch_a)] = Ok (tt, [merge_ab]))
    by (vm_compute; reflexivity).
  destruct (proj2 (proj2 (insert_at_outcome [0] (Some batch_b) 0 [Single (Some batch_a)]))
              _ _ E) as (Hl & _ & Hs).
  split; [exact E | split; [exact Hl | exact Hs]].
Defined.

(** X13: [complete_at(index)] panics when [index] is beyond the layers;
    otherwise it empties layer [index] and returns what it held: nothing for
    a vacant layer, the batch of a single layer, the result of a completed
    merge. *)
Theorem complete_at_outcome {K V T} {EqK : EqB K} {EqV : EqB V} {EqT : EqB T}
    {DefT : Default T} {LatT : Lattice T} (i : nat) (ms : list (MergeState K V T)) :
  ((List.length ms <= i)%nat -> exists e, complete_at i ms = Panic e) /\
  ((i < List.length ms)%nat ->
     (slot ms i = Vacant -> complete_at i ms = Ok (None, ms)) /\
     (forall o, slot ms i = Single o -> complete_at i ms = Ok (o, set_nth ms i Vacant)) /\
     (forall c, slot ms i = Double (Complete c) ->
        complete_at i ms = Ok (option_map fst c, set_nth ms i Vacant))).
Proof.
  unfold complete_at, take, bind, index_get, index_set, lift, ret.
  split.
  - intros Hi; rewrite (proj2 (nth_error_None ms i) Hi); eexists; reflexivity.
  - intros Hi; rewrite (nth_error_slot ms i Hi).
    assert (Hl : Nat.ltb i (List.length ms) = true) by (apply Nat.ltb_lt; exact Hi).
    rewrite Hl; split; [|split].
    + intros Hv; rewrite Hv; cbn.
      rewrite <- Hv; unfold slot; rewrite set_nth_nth; reflexivity.
    + intros o Ho; rewrite Ho; cbn; destruct o; reflexivity.
    + intros c Hc; rewrite Hc; cbn; destruct c as [[b p]|]; reflexivity.
Qed.

Lemma complete_at_outcome_witness :
  complete_at 0 [Single (Some batch_a); Vacant] = Ok (Some batch_a, [Vacant; Vacant]) /\
  (exists e, complete_at 2 [Single (Some batch_a); Vacant] = Panic e).
Proof.
  split.
  - apply (proj2 (complete_at_outcome 0 [Single (Some batch_a); Vacant]) ltac:(cbn; lia)).
    reflexivity.
  - apply (proj1 (complete_at_outcome 2 [Single (Some batch_a); Vacant])); cbn; lia.
Defined.

(** ** The fuel of [introduce_batch] *)

(** X14: without overflow, [introduce_batch] at level [batch_index] works
    with fuel [(8 << batch_index) * effort = 2^(batch_index + 3) * effort]. *)
Theorem introduce_fuel_exact (eff : Z) (i : nat) (Hi : (i < 61)%nat) (He : 0 <= eff)
    (Hov : 2 ^ (Z.of_nat i + 3) * eff < 2 ^ 63) :
  introduce_fuel eff i = 2 ^ (Z.of_nat i + 3) * eff.
Proof.
  unfold introduce_fuel, shl_usize, usize_wrap, isize_of_usize.
  rewrite (Z.mod_small (Z.of_nat i) 64) by lia.
  rewrite Z.shiftl_mul_pow2 by lia.
  assert (Hp : 8 * 2 ^ Z.of_nat i = 2 ^ (Z.of_nat i + 3))
    by (rewrite Z.pow_add_r by lia; lia).
  rewrite Hp.
  assert (Hpos : 0 < 2 ^ (Z.of_nat i + 3)) by (apply Z.pow_pos_nonneg; lia).
  assert (H63 : 2 ^ (Z.of_nat i + 3) <= 2 ^ 63) by (apply Z.pow_le_mono_r; lia).
  rewrite (Z.mod_small (2 ^ (Z.of_nat i + 3)) (2 ^ 64)) by lia.
  rewrite Z.mod_small by nia.
  destruct (Z.ltb_spec (2 ^ (Z.of_nat i + 3) * eff) (2 ^ 63)); lia.
Qed.

Lemma introduce_fuel_exact_witness :
  (4 < 61)%nat /\ 0 <= 1 /\ 2 ^ (Z.of_nat 4 + 3) * 1 < 2 ^ 63 /\ introduce_fuel 1 4 = 128.
Proof.
  split; [lia | split; [lia | split; [reflexivity|]]].
  rewrite (introduce_fuel_exact 1 4 ltac:(lia) ltac:(lia) ltac:(reflexivity)); reflexivity.
Defined.

(** X15: at levels 60 to 63, [8 << batch_index] overflows [usize] (to
    [2^63], then to 0), and the fuel [introduce_batch] computes is zero or
    negative whatever the effort: these levels bring no fuel to the merges. *)
Theorem introduce_fuel_overflow (eff : Z) (i : nat) (Hi : (60 <= i <= 63)%nat) (He : 0 <= eff) :
  introduce_fuel eff i <= 0.
Proof.
  unfold introduce_fuel, isize_of_usize.
  assert (Hcase : i = 60%nat \/ i = 61%nat \/ i = 62%nat \/ i = 63%nat) by lia.
  destruct Hcase as [-> | [-> | [-> | ->]]];
    [replace (shl_usize 8 (Z.of_nat 60)) with (2 ^ 63) by reflexivity
    |replace (shl_usize 8 (Z.of_nat 61)) with 0 by reflexivity
    |replace (shl_usize 8 (Z.of_nat 62)) with 0 by reflexivity
    |replace (shl_usize 8 (Z.of_nat 63)) with 0 by reflexivity];
    unfold usize_wrap;
    [|rewrite Z.mul_0_l; cbn; lia ..].
  replace (2 ^ 64) with (2 ^ 63 * 2) by reflexivity.
  rewrite Z.mul_mod_distr_l by lia.
  pose proof (Z.mod_pos_bound eff 2 ltac:(lia)) as Hb.
  assert (Hm : eff mod 2 = 0 \/ eff mod 2 = 1) by lia.
  destruct Hm as [-> | ->]; cbn; lia.
Qed.

Lemma introduce_fuel_overflow_witness :
  introduce_fuel 1 60 = - 2 ^ 63 /\ introduce_fuel 1 60 <= 0.
Proof.
  split; [reflexivity | apply introduce_fuel_overflow; lia].
Defined.

(** ** Reading the Spine: [cursor_through] and [map_batches] *)

Lemma filter_flat_map {A B : Type} (f : B -> bool) (g : A -> list B) (l : list A) :
  filter f (flat_map g l) = flat_map (fun x => filter f (g x)) l.
Proof.
  induction l as [|x l IH]; cbn; [reflexivity|]; rewrite filter_app, IH; reflexivity.
Qed.

Lemma layer_batches_filter {K V T} (m : MergeState K V T) :
  layer_batches m = filter (fun b => negb (is_empty b)) (map_batches_layer m).
Proof.
  destruct m as [|[b|]|[b1 b2 f mg|[[b p]|]]]; cbn; try reflexivity;
    repeat match goal with |- context [is_empty ?b] => destruct (is_empty b) end;
    reflexivity.
Qed.

Lemma layers_read {K V T} (ms : list (MergeState K V T)) :
  flat_map layer_batches (rev ms) =
  filter (fun b => negb (is_empty b)) (flat_map map_batches_layer (rev ms)).
Proof.
  rewrite filter_flat_map; apply flat_map_ext; intros m; apply layer_batches_filter.
Qed.

(** X16: [cursor_through] with the empty frontier as [upper] (when the
    advance frontier is non-empty) never panics and reads exactly the
    non-empty batches [map_batches] visits, in the same order. *)
Theorem cursor_through_empty_frontier {K V T} {EqK : EqB K} {EqV : EqB V} {EqT : EqB T}
    {DefT : Default T} {LatT : Lattice T} (s : Spine K V T) (Ha : advance_frontier s <> []) :
  cursor_through s [] = Ok (Some (filter (fun b => negb (is_empty b)) (map_batches s))).
Proof.
  unfold cursor_through.
  destruct (advance_frontier s) as [|a af]; [contradiction|]; cbn [List.length Nat.eqb].
  change (frontier_ge [] (through_frontier s)) with true; cbn [negb].
  pose proof (pending_through_spec [] (pending s)) as Hspec.
  destruct (pending_through [] (pending s)) as [l|e].
  - destruct Hspec as [-> _].
    unfold map_batches; rewrite filter_app, layers_read; do 2 f_equal.
    f_equal; apply filter_ext; intros b; unfold included; change (frontier_ge [] (upper b)) with true.
    apply andb_true_r.
  - destruct Hspec as (b & _ & Hb); unfold straddles in Hb.
    change (frontier_ge [] (lower b)) with true in Hb;
    change (frontier_ge [] (upper b)) with true in Hb.
    rewrite andb_false_r, andb_false_l in Hb; cbn in Hb; discriminate.
Qed.

Lemma cursor_through_empty_frontier_witness :
  cursor_through (mkSpine [0] [0] [Single (Some batch_a)] [batch_empty; batch_b] [2] 1) [] =
    Ok (Some [batch_a; batch_b]) /\
  cursor_through (mkSpine [0] [0] [Single (Some batch_a)] [batch_empty; batch_b] [2] 1) [] =
    Ok (Some (filter (fun b => negb (is_empty b))
      (map_batches (mkSpine [0] [0] [Single (Some batch_a)] [batch_empty; batch_b] [2] 1)))).
Proof.
  split; [vm_compute; reflexivity|].
  apply cursor_through_empty_frontier; discriminate.
Defined.

(** X17: every batch a successful [cursor_through] reads is one that
    [map_batches] visits, and holds at least one record. *)
Theorem cursor_through_reads_visited {K V T} {EqK : EqB K} {EqV : EqB V} {EqT : EqB T}
    {DefT : Default T} {LatT : Lattice T} (s : Spine K V T) (up : list T) (l : list (Batch K V T))
    (Hc : cursor_through s up = Ok (Some l)) :
  forall b, In b l -> In b (map_batches s) /\ is_empty b = false.
Proof.
  unfold cursor_through in Hc.
  destruct (Nat.eqb _ 0); [discriminate|].
  destruct (negb (frontier_ge up (through_frontier s))); [discriminate|].
  pose proof (pending_through_spec up (pending s)) as Hspec.
  destruct (pending_through up (pending s)) as [l'|e]; [|discriminate].
  destruct Hspec as [-> _]; inversion Hc; subst l; clear Hc.
  intros b Hin; unfold map_batches; apply in_app_or in Hin; destruct Hin as [Hin|Hin].
  - rewrite layers_read in Hin; apply filter_In in Hin; destruct Hin as [Hin He].
    split; [apply in_or_app; left; exact Hin | destruct (is_empty b); [discriminate | reflexivity]].
  - apply filter_In in Hin; destruct Hin as [Hin Hinc]; unfold included in Hinc.
    split; [apply in_or_app; right; exact Hin|].
    destruct (is_empty b); [discriminate | reflexivity].
Qed.

Lemma cursor_through_reads_visited_witness :
  cursor_through (mkSpine [0] [0] [Single (Some batch_a)] [batch_b] [2] 1) [2] =
    Ok (Some [batch_a; batch_b]) /\
  In batch_b (map_batches (mkSpine [0] [0] [Single (Some batch_a)] [batch_b] [2] 1)) /\
  is_empty batch_b = false.
Proof.
  assert (E : cursor_through (mkSpine [0] [0] [Single (Some batch_a)] [batch_b] [2] 1) [2] =
    Ok (Some [batch_a; batch_b])) by (vm_compute; reflexivity).
  split; [exact E|].
  apply (cursor_through_reads_visited _ _ _ E); right; left; reflexivity.
Defined.

(** X18: [advance_by] with a non-empty frontier, on a Spine whose advance
    frontier is non-empty, changes neither what [cursor_through] returns for
    any [upper] nor the batches [map_batches] visits. *)
Theorem advance_by_keeps_reads {K V T} {EqK : EqB K} {EqV : EqB V} {EqT : EqB T}
    {DefT : Default T} {LatT : Lattice T} (s : Spine K V T) (F : list T)
    (HF : F <> []) (Ha : advance_frontier s <> []) :
  (forall up, cursor_through (spine_advance_by s F) up = cursor_through s up) /\
  map_batches (spine_advance_by s F) = map_batches s.
Proof.
  destruct F as [|f F]; [contradiction|]; split; [|reflexivity].
  intros up; unfold cursor_through; cbn [spine_advance_by advance_frontier].
  destruct (advance_frontier s); [contradiction | reflexivity].
Qed.

Lemma advance_by_keeps_reads_witness :
  cursor_through (spine_advance_by (mkSpine [0] [0] [Single (Some batch_a)] [batch_b] [2] 1) [5]) [2] =
    cursor_through (mkSpine [0] [0] [Single (Some batch_a)] [batch_b] [2] 1) [2].
Proof.
  apply (advance_by_keeps_reads (mkSpine [0] [0] [Single (Some batch_a)] [batch_b] [2] 1) [5]);
    discriminate.
Defined.

(** ** [roll_up] and [tidy_layers] *)

Section TidyLength.
  Context {K V T : Type} {EqK : EqB K} {EqV : EqB V} {EqT : EqB T} {DefT : Default T} {LatT : Lattice T}.

Lemma index_set_len i x (ms : list (MergeState K V T)) u ms' :
    index_set i x ms = Ok (u, ms') -> List.length ms' = List.length ms.
  Proof.
    unfold index_set; destruct (Nat.ltb i _); intros E; inversion E; apply set_nth_length.
  Qed.

Lemma take_len i (ms : list (MergeState K V T)) x ms' :
    take i ms = Ok (x, ms') -> List.length ms' = List.length ms.
  Proof.
    unfold take; intros Hs.
    destruct (bind_ok _ _ _ _ _ Hs) as (y & ms1 & H1 & H2).
    destruct (index_get_ok _ _ _ _ H1) as [-> _].
    destruct (bind_ok _ _ _ _ _ H2) as ([] & ms2 & H3 & H4).
    unfold ret in H4; inversion H4; subst; exact (index_set_len _ _ _ _ _ H3).
  Qed.

Lemma vec_remove_len i (ms : list (MergeState K V T)) u ms' :
    vec_remove i ms = Ok (u, ms') -> List.length ms' = (List.length ms - 1)%nat.
  Proof.
    unfold vec_remove; destruct (Nat.ltb i (List.length ms)) eqn:Hi; [|discriminate].
    intros E; assert (Hm : ms' = firstn i ms ++ skipn (S i) ms) by congruence.
    rewrite Hm; apply Nat.ltb_lt in Hi.
    rewrite length_app, length_firstn, length_skipn; lia.
  Qed.

Lemma insert_at_len af batch i (ms : list (MergeState K V T)) u ms' :
    insert_at af batch i ms = Ok (u, ms') -> List.length ms' = Nat.max (List.length ms) (S i).
  Proof.
    intros E; exact (proj1 (proj2 (proj2 (insert_at_outcome af batch i ms)) _ _ E)).
  Qed.

Lemma tidy_loop_len af lvl c : forall (ms : list (MergeState K V T)) u ms',
    tidy_loop af lvl c ms = Ok (u, ms') -> (List.length ms' <= List.length ms)%nat.
  Proof.
    induction c as [|c IH]; intros ms u ms' Hs; cbn [tidy_loop] in Hs.
    - unfold ret in Hs; inversion Hs; subst; lia.
    - unfold bind at 1, get_ms in Hs.
      destruct (Nat.ltb lvl (List.length ms - 1)) eqn:Hlt; [|unfold ret in Hs; inversion Hs; subst; lia].
      apply Nat.ltb_lt in Hlt.
      destruct (bind_ok _ _ _ _ _ Hs) as (st & ms1 & H1 & H2).
      pose proof (take_len _ _ _ _ H1) as L1.
      destruct st as [|[b|]|v].
      + destruct (bind_ok _ _ _ _ _ H2) as ([] & ms2 & H3 & H4).
        pose proof (vec_remove_len _ _ _ _ H3); pose proof (IH _ _ _ H4); lia.
      + unfold bind at 1, get_ms in H2.
        destruct (_ <=? _).
        * destruct (bind_ok _ _ _ _ _ H2) as ([] & ms2 & H3 & H4).
          pose proof (vec_remove_len _ _ _ _ H3).
          pose proof (insert_at_len _ _ _ _ _ _ H4); lia.
        * pose proof (index_set_len _ _ _ _ _ H2); lia.
      + destruct (bind_ok _ _ _ _ _ H2) as ([] & ms2 & H3 & H4).
        pose proof (vec_remove_len _ _ _ _ H3); pose proof (IH _ _ _ H4); lia.
      + pose proof (index_set_len _ _ _ _ _ H2); lia.
  Qed.
End TidyLength.

(** X19: [roll_up(index)] only pads the layers to [index + 1] when every
    layer below [index] is already vacant; after any successful [roll_up],
    every layer below [index] is vacant. *)
Theorem roll_up_outcome {K V T} {EqK : EqB K} {EqV : EqB V} {EqT : EqB T}
    {DefT : Default T} {LatT : Lattice T} (af : list T) (index : nat)
    (ms : list (MergeState K V T)) :
  ((forall j, (j < index)%nat -> slot ms j = Vacant) ->
     roll_up af index ms = Ok (tt, ms ++ repeat Vacant (S index - List.length ms))) /\
  (forall u ms', roll_up af index ms = Ok (u, ms') ->
     forall j, (j < index)%nat -> slot ms' j = Vacant).
Proof.
  split; [|intros u ms' E; exact (roll_up_ok _ _ _ _ _ E)].
  intros Hv; unfold roll_up, bind at 1, ensure_len, bind at 1, get_ms.
  set (ms1 := ms ++ repeat Vacant (S index - List.length ms)).
  destruct (existsb (fun m => negb (is_vacant m)) (firstn index ms1)) eqn:Hex; [|reflexivity].
  exfalso; apply existsb_exists in Hex; destruct Hex as (x & Hin & Hx).
  apply (In_nth _ _ Vacant) in Hin; destruct Hin as (j & Hj & <-).
  rewrite length_firstn in Hj; rewrite nth_firstn in Hx.
  assert (Hji : Nat.ltb j index = true) by (apply Nat.ltb_lt; lia).
  rewrite Hji in Hx; change (nth j ms1 Vacant) with (slot ms1 j) in Hx.
  unfold ms1 in Hx; rewrite slot_pad, Hv in Hx by lia; discriminate.
Qed.

Lemma roll_up_outcome_witness :
  roll_up [0] 2 [Vacant; Vacant; Single (Some batch_a)] =
    Ok (tt, [Vacant; Vacant; Single (Some batch_a)]).
Proof.
  apply (proj1 (roll_up_outcome [0] 2 [Vacant; Vacant; Single (Some batch_a)])).
  intros [|[|j]] Hj; [reflexivity | reflexivity | lia].
Defined.

(** X20: [tidy_layers] never adds a layer: after a successful call the Spine
    has at most as many layers as before. *)
Theorem tidy_layers_never_grows {K V T} {EqK : EqB K} {EqV : EqB V} {EqT : EqB T}
    {DefT : Default T} {LatT : Lattice T} (af : list T) (ms ms' : list (MergeState K V T))
    (u : unit) (Ht : tidy_layers af ms = Ok (u, ms')) :
  (List.length ms' <= List.length ms)%nat.
Proof.
  unfold tidy_layers, bind at 1, get_ms in Ht.
  destruct ms as [|m r]; [unfold ret in Ht; inversion Ht; subst; lia|].
  destruct (bind_ok _ _ _ _ _ Ht) as (st & ms1 & H1 & H2).
  destruct (index_get_ok _ _ _ _ H1) as [-> _].
  destruct (is_single st); [exact (tidy_loop_len _ _ _ _ _ _ H2)|].
  unfold ret in H2; inversion H2; subst; lia.
Qed.

Lemma tidy_layers_never_grows_witness :
  tidy_layers [0] (merging spine_reduced) = Ok (tt, merging spine_tidied) /\
  (List.length (merging spine_tidied) <= List.length (merging spine_reduced))%nat.
Proof.
  assert (E : tidy_layers [0] (merging spine_reduced) = Ok (tt, merging spine_tidied))
    by (vm_compute; reflexivity).
  split; [exact E | exact (tidy_layers_never_grows _ _ _ _ E)].
Defined.

(** ** Witnesses of the lattice properties on [usize] *)

Lemma advance_by_idempotent_witness :
  advance_by (advance_by 3 [5; 4]) [5; 4] = advance_by 3 [5; 4] /\ advance_by 3 [5; 4] = 4.
Proof.
  split; [apply (advance_by_idempotent usize_laws) | reflexivity].
Defined.

Lemma advance_by_monotone_witness :
  less_equal (advance_by 2 [5; 4]) (advance_by 7 [5; 4]) = true.
Proof.
  apply (advance_by_monotone usize_laws); reflexivity.
Defined.

Lemma advance_by_beyond_frontier_witness :
  advance_by 6 [5; 9] = 6.
Proof.
  apply (advance_by_beyond_frontier usize_laws 6 5); [left; reflexivity | reflexivity].
Defined.
